(** * TeactN: the global-state propagation engine of [src/lib/teact/teactn.tsx]

    A shallow embedding of the module's state cell, action dispatcher,
    subscription registry, recompute pass and heavy-animation gate, with
    the module-level variables gathered in one record that every
    function threads explicitly, and the calls to the collaborators
    (handlers, mappers, [forceUpdate], [handleError], callbacks) recorded
    in a log.

    The collaborators are modelled by what they may do to the module.  An
    action handler reads the state, calls [setGlobal], dispatches actions
    and returns a response or throws.  A mapper is a function of the state
    and the own props that returns props or throws.  An activation
    function consults [stickToFirst] and returns its verdict.  Callbacks
    added with [addCallback] and the subscribers' [forceUpdate] observe
    only: they return, and they do not call back into the module while
    it runs.  Activation functions and added callbacks that throw, which
    the source does not catch, are outside the embedding. *)

From Stdlib Require Import ZArith Lia.
From stdpp Require Import base strings list gmap.

Open Scope Z_scope.
Open Scope nat_scope.
Open Scope string_scope.
Open Scope list_scope.

(** ** Build configuration *)

(** Modelled from the spec: the constants [DEBUG] and [DEBUG_MORE] of
    [config] are not among the sources.  Section 6 of the specification
    places the debug hooks (update counters, slow-pass warnings, the
    stale-state marker) outside the functional contract; the embedding is
    that of the production build, where both constants are false and the
    blocks under [if (DEBUG)] and [if (DEBUG_MORE)] are dead code. *)
Definition DEBUG : bool := false.

Definition DEBUG_MORE : bool := false.

(** ** JavaScript values *)

(** Objects are opaque and compared by reference; [VThenable] is an
    object whose [then] member is a function (a Promise).  Numbers are
    the integers, with [VNaN] for the one number that is falsy without
    being zero and unequal to itself. *)
Inductive value : Type :=
| VUndefined
| VNull
| VBool (b : bool)
| VNum (n : Z)
| VNaN
| VStr (s : string)
| VObj (ref : nat)
| VThenable (ref : nat)
| VFun (ref : nat).

#[global] Instance value_eq_dec : EqDecision value.
Proof. solve_decision. Defined.

(** The [typeof] operator. *)
Definition typeof (v : value) : string :=
  match v with
  | VUndefined => "undefined"
  | VNull => "object"
  | VBool _ => "boolean"
  | VNum _ | VNaN => "number"
  | VStr _ => "string"
  | VObj _ | VThenable _ => "object"
  | VFun _ => "function"
  end.

(** Truthiness, as used by [!x], [x && y] and [if (x)]. *)
Definition truthy (v : value) : bool :=
  match v with
  | VUndefined | VNull | VNaN => false
  | VBool b => b
  | VNum n => negb (Z.eqb n 0)
  | VStr s => negb (String.eqb s "")
  | VObj _ | VThenable _ | VFun _ => true
  end.

(** Strict equality [===]: by value on primitives (and never on NaN), by
    reference on objects. *)
Definition strict_eq (a b : value) : bool :=
  match a with
  | VNaN => false
  | _ => bool_decide (a = b)
  end.

(** [typeof v.then === 'function'], for a [v] that is truthy. *)
Definition is_thenable (v : value) : bool :=
  match v with
  | VThenable _ => true
  | _ => false
  end.

(** A value that belongs to the JavaScript Object type: [null] is not
    one, although [typeof null] is ["object"]. *)
Definition is_object (v : value) : bool :=
  match v with
  | VObj _ | VThenable _ => true
  | _ => false
  end.

(** ** Props *)

Abbreviation Props := (gmap string value).

(** Modelled from the spec: [arePropsShallowEqual] (util/arePropsShallowEqual)
    is not among the sources.  Section 4.4 and property 5 describe it as a
    shallow compare over all enumerable fields: equal when the keys are
    identical and every key holds a strictly equal value, unequal when a
    value differs or a key is added or removed. *)
Definition props_agree_on (a b : Props) (k : string) : bool :=
  match a !! k, b !! k with
  | Some x, Some y => strict_eq x y
  | _, _ => false
  end.

Definition arePropsShallowEqual (a b : Props) : bool :=
  bool_decide (dom a = dom b)
  && forallb (props_agree_on a b) (elements (dom a)).

(** Modelled from the spec: the source passes [mappedProps!], a field
    that is absent until the first successful derivation, and what the
    helper does on an absent argument is not in the sources.  Section 4.4
    notifies when the new props "differ from the previous derived props";
    a container that has none yet is taken to differ from any. *)
Definition arePropsShallowEqual_opt (a : option Props) (b : Props) : bool :=
  match a with
  | Some a' => arePropsShallowEqual a' b
  | None => false
  end.

(** ** Options, handlers, containers *)

Record ActionOptions : Type := {
  optForceOnHeavyAnimation : bool;
  optForceSyncOnIOs : bool;
  optForceOutdated : bool;
}.

(** [options?.field]: absent options and absent fields read as falsy. *)
Definition opt_flag (f : ActionOptions -> bool) (options : option ActionOptions) : bool :=
  match options with
  | Some o => f o
  | None => false
  end.

(** What an action handler does when called: it may read the state, call
    [setGlobal], dispatch through the [actions] table, and ends by
    returning a response or by throwing. *)
Inductive hprog : Type :=
| HReturn (response : value)
| HThrow (err : value)
| HGetGlobal (k : value -> hprog)
| HSetGlobal (newGlobal : value) (options : option ActionOptions) (k : hprog)
| HDispatch (name : string) (payload : value) (options : option ActionOptions) (k : hprog).

(** [(global, actions, payload) => ...]; [actions] is reached through
    [HDispatch]. *)
Definition ActionHandler : Type := value -> value -> hprog.

Inductive mapper_result : Type :=
| MProps (p : Props)
| MThrow (err : value).

(** A mapper is a function of the state and the own props: called twice
    on the same arguments it returns the same props, references included.
    A mapper that builds a new object or array at each call is not such a
    function; where two calls are compared, the statement keeps to
    mappers that build nothing (see [settles]). *)
Definition MapStateToProps : Type := value -> Props -> mapper_result.

(** What an activation function does when called: it may consult
    [stickToFirst] any number of times and returns its verdict.  The
    embedding covers activation functions that return: the source calls
    them outside the [try] of the pass and of the render, so that one
    that throws would leave the pass by an exception no one reports; such
    a run is not represented. *)
Inductive aprog : Type :=
| ARet (active : value)
| AStick (stickTo : value) (k : value -> aprog).

Definition ActivationFn : Type := value -> Props -> aprog.

(** [interface Container]; [forceUpdate] is the subscriber's collaborator
    and a call to it is recorded in the log under the container's key. *)
Record Container : Type := {
  mapStateToProps : MapStateToProps;
  activationFn : option ActivationFn;
  stuckTo : value;
  ownProps : Props;
  mappedProps : option Props;
}.

Definition set_stuckTo (s : value) (c : Container) : Container :=
  {| mapStateToProps := mapStateToProps c; activationFn := activationFn c;
     stuckTo := s; ownProps := ownProps c; mappedProps := mappedProps c |}.

Definition set_mappedProps (p : option Props) (c : Container) : Container :=
  {| mapStateToProps := mapStateToProps c; activationFn := activationFn c;
     stuckTo := stuckTo c; ownProps := ownProps c; mappedProps := p |}.

Definition set_ownProps (p : Props) (c : Container) : Container :=
  {| mapStateToProps := mapStateToProps c; activationFn := activationFn c;
     stuckTo := stuckTo c; ownProps := p; mappedProps := mappedProps c |}.

(** The closure pushed on the action queue captures these three. *)
Record QueuedAction : Type := {
  qname : string;
  qpayload : value;
  qoptions : option ActionOptions;
}.

(** An entry of [callbacks]: the pass over the containers, with which
    the list starts, or a function added with [addCallback].  The
    embedding covers added functions that return and leave the module
    alone: a call of one is recorded in the log and changes nothing else.
    A function that throws would end [callbacks.forEach], which has no
    [try], before the callbacks listed after it, and one that calls back
    into the module would run that call inside the loop; such runs are
    not represented. *)
Inductive Callback : Type :=
| CbUpdateContainers
| CbExternal (id : nat).

#[global] Instance Callback_eq_dec : EqDecision Callback.
Proof. solve_decision. Defined.

(** ** Observable calls *)

(** What the log records: a closure pushed on the action queue, the
    drain loop entered, a handler invoked (with the state it receives),
    [updateContainers] entered (with the state it reads), a mapper
    invoked, a subscriber's [forceUpdate] called, [handleError] called,
    and an added callback called. *)
Inductive event : Type :=
| EvEnqueue (name : string) (payload : value)
| EvDrainBegin
| EvHandler (name : string) (payload : value) (index : nat) (global : value)
| EvPass (global : value)
| EvMapper (id : string)
| EvNotify (id : string)
| EvError (err : value)
| EvCallback (id : nat) (global : value).

(** ** Module state *)

Record Store : Type := {
  currentGlobal : value;
  forceOnHeavyAnimation : bool;
  actionHandlers : gmap string (list ActionHandler);
  callbacks : list Callback;
  containers : list (string * Container);
  actionQueue : list QueuedAction;
  throttleWaiting : bool;
  isHeavyAnimating : bool;
  onceIdle : nat;
  log : list event;
}.

(** Assignments to the module-level variables. *)

Definition set_currentGlobal (x : value) (st : Store) : Store :=
  {| currentGlobal := x;
     forceOnHeavyAnimation := forceOnHeavyAnimation st;
     actionHandlers := actionHandlers st;
     callbacks := callbacks st;
     containers := containers st;
     actionQueue := actionQueue st;
     throttleWaiting := throttleWaiting st;
     isHeavyAnimating := isHeavyAnimating st;
     onceIdle := onceIdle st;
     log := log st |}.

Definition set_forceOnHeavyAnimation (x : bool) (st : Store) : Store :=
  {| currentGlobal := currentGlobal st;
     forceOnHeavyAnimation := x;
     actionHandlers := actionHandlers st;
     callbacks := callbacks st;
     containers := containers st;
     actionQueue := actionQueue st;
     throttleWaiting := throttleWaiting st;
     isHeavyAnimating := isHeavyAnimating st;
     onceIdle := onceIdle st;
     log := log st |}.

Definition set_actionHandlers (x : gmap string (list ActionHandler)) (st : Store) : Store :=
  {| currentGlobal := currentGlobal st;
     forceOnHeavyAnimation := forceOnHeavyAnimation st;
     actionHandlers := x;
     callbacks := callbacks st;
     containers := containers st;
     actionQueue := actionQueue st;
     throttleWaiting := throttleWaiting st;
     isHeavyAnimating := isHeavyAnimating st;
     onceIdle := onceIdle st;
     log := log st |}.

Definition set_callbacks (x : list Callback) (st : Store) : Store :=
  {| currentGlobal := currentGlobal st;
     forceOnHeavyAnimation := forceOnHeavyAnimation st;
     actionHandlers := actionHandlers st;
     callbacks := x;
     containers := containers st;
     actionQueue := actionQueue st;
     throttleWaiting := throttleWaiting st;
     isHeavyAnimating := isHeavyAnimating st;
     onceIdle := onceIdle st;
     log := log st |}.

Definition set_containers (x : list (string * Container)) (st : Store) : Store :=
  {| currentGlobal := currentGlobal st;
     forceOnHeavyAnimation := forceOnHeavyAnimation st;
     actionHandlers := actionHandlers st;
     callbacks := callbacks st;
     containers := x;
     actionQueue := actionQueue st;
     throttleWaiting := throttleWaiting st;
     isHeavyAnimating := isHeavyAnimating st;
     onceIdle := onceIdle st;
     log := log st |}.

Definition set_actionQueue (x : list QueuedAction) (st : Store) : Store :=
  {| currentGlobal := currentGlobal st;
     forceOnHeavyAnimation := forceOnHeavyAnimation st;
     actionHandlers := actionHandlers st;
     callbacks := callbacks st;
     containers := containers st;
     actionQueue := x;
     throttleWaiting := throttleWaiting st;
     isHeavyAnimating := isHeavyAnimating st;
     onceIdle := onceIdle st;
     log := log st |}.

Definition set_throttleWaiting (x : bool) (st : Store) : Store :=
  {| currentGlobal := currentGlobal st;
     forceOnHeavyAnimation := forceOnHeavyAnimation st;
     actionHandlers := actionHandlers st;
     callbacks := callbacks st;
     containers := containers st;
     actionQueue := actionQueue st;
     throttleWaiting := x;
     isHeavyAnimating := isHeavyAnimating st;
     onceIdle := onceIdle st;
     log := log st |}.

Definition set_isHeavyAnimating (x : bool) (st : Store) : Store :=
  {| currentGlobal := currentGlobal st;
     forceOnHeavyAnimation := forceOnHeavyAnimation st;
     actionHandlers := actionHandlers st;
     callbacks := callbacks st;
     containers := containers st;
     actionQueue := actionQueue st;
     throttleWaiting := throttleWaiting st;
     isHeavyAnimating := x;
     onceIdle := onceIdle st;
     log := log st |}.

Definition set_onceIdle (x : nat) (st : Store) : Store :=
  {| currentGlobal := currentGlobal st;
     forceOnHeavyAnimation := forceOnHeavyAnimation st;
     actionHandlers := actionHandlers st;
     callbacks := callbacks st;
     containers := containers st;
     actionQueue := actionQueue st;
     throttleWaiting := throttleWaiting st;
     isHeavyAnimating := isHeavyAnimating st;
     onceIdle := x;
     log := log st |}.

Definition set_log (x : list event) (st : Store) : Store :=
  {| currentGlobal := currentGlobal st;
     forceOnHeavyAnimation := forceOnHeavyAnimation st;
     actionHandlers := actionHandlers st;
     callbacks := callbacks st;
     containers := containers st;
     actionQueue := actionQueue st;
     throttleWaiting := throttleWaiting st;
     isHeavyAnimating := isHeavyAnimating st;
     onceIdle := onceIdle st;
     log := x |}.

Definition emit (evs : list event) (st : Store) : Store :=
  set_log (log st ++ evs) st.

(** [let currentGlobal = { isInited: false }], [let forceOnHeavyAnimation = true],
    [callbacks = [updateContainers]], everything else empty; the initial
    state object is reference 0. *)
Definition initial_store : Store :=
  {| currentGlobal := VObj 0;
     forceOnHeavyAnimation := true;
     actionHandlers := ∅;
     callbacks := [CbUpdateContainers];
     containers := [];
     actionQueue := [];
     throttleWaiting := false;
     isHeavyAnimating := false;
     onceIdle := 0;
     log := [] |}.

(** ** Activation: [activateContainer] *)

(** The arrow function handed to [activationFn].  [stuckTo] is the field
    as destructured on entry to [activateContainer]; [cur] is the live
    [container.stuckTo], which the assignment updates. *)
Definition stickToFirst (stuckTo : value) (stickTo : value) (cur : value) : value * value :=
  let cur' := if truthy stickTo && negb (truthy stuckTo) then stickTo else cur in
  let ret :=
    if truthy stickTo
    then VBool (negb (truthy stuckTo) || strict_eq stuckTo stickTo)
    else stickTo in
  (ret, cur').

(** Runs an activation function's body; returns its verdict, the final
    [container.stuckTo] and the transcript of the [stickToFirst] calls
    (candidate, returned value). *)
Fixpoint run_aprog (stuckTo : value) (p : aprog) (cur : value)
  : value * value * list (value * value) :=
  match p with
  | ARet v => (v, cur, [])
  | AStick stickTo k =>
      let '(ret, cur') := stickToFirst stuckTo stickTo cur in
      let '(v, cur'', calls) := run_aprog stuckTo (k ret) cur' in
      (v, cur'', (stickTo, ret) :: calls)
  end.

Definition activateContainer (container : Container) (global : value) (props : Props)
  : bool * Container :=
  match activationFn container with
  | None => (true, container)
  | Some f =>
      let '(v, cur, _) := run_aprog (stuckTo container) (f global props) (stuckTo container) in
      (truthy v, set_stuckTo cur container)
  end.

(** ** The recompute pass: [updateContainers] *)

Inductive visit : Type :=
| Continue (c : Container) (evs : list event)
| Abort (c : Container) (evs : list event).

(** One iteration of the [for ... of containers.values()] loop. *)
Definition visit_container (global : value) (id : string) (container : Container) : visit :=
  let '(active, c1) := activateContainer container global (ownProps container) in
  if negb active then Continue c1 []
  else
    match mapStateToProps container global (ownProps container) with
    | MThrow err => Abort c1 [EvMapper id; EvError err]
    | MProps newMappedProps =>
        if negb (Nat.eqb (size newMappedProps) 0)
           && negb (arePropsShallowEqual_opt (mappedProps container) newMappedProps)
        then Continue (set_mappedProps (Some newMappedProps) c1) [EvMapper id; EvNotify id]
        else Continue c1 [EvMapper id]
    end.

Fixpoint updateContainers_loop (global : value) (cs : list (string * Container))
  : list (string * Container) * list event :=
  match cs with
  | [] => ([], [])
  | (id, c) :: rest =>
      match visit_container global id c with
      | Continue c' evs =>
          let '(rest', evs') := updateContainers_loop global rest in
          ((id, c') :: rest', evs ++ evs')
      | Abort c' evs => ((id, c') :: rest, evs)
      end
  end.

Definition updateContainers (st : Store) : Store :=
  let '(cs, evs) := updateContainers_loop (currentGlobal st) (containers st) in
  emit (EvPass (currentGlobal st) :: evs) (set_containers cs st).

(** ** Scheduling: [runCallbacks], [runCallbacksThrottled] and the gate *)

(** Modelled from the spec: [throttleWithTickEnd] (util/schedulers) is not
    among the sources.  Section 4.4: calls within one scheduling tick are
    coalesced; the body runs once, at the end of the tick, on the state
    of that moment.  A call raises the waiting flag; [tickEnd] lowers it
    and runs the body. *)
Definition runCallbacksThrottled (st : Store) : Store :=
  set_throttleWaiting true st.

(** [cb(currentGlobal)]: the pass over the containers, or an observer
    added with [addCallback]. *)
Definition run_callback (cb : Callback) (st : Store) : Store :=
  match cb with
  | CbUpdateContainers => updateContainers st
  | CbExternal id => emit [EvCallback id (currentGlobal st)] st
  end.

(** Modelled from the spec: [getIsHeavyAnimating] (teact) is not among the
    sources.  Section 4.5: [isBusy()] reads the gate, and [onceIdle(cb)]
    registers [cb] to fire exactly once the next time the gate turns idle.
    The only callback this module registers is [runCallbacksThrottled], so
    the registrations are counted. *)
Definition getIsHeavyAnimating (st : Store) : bool := isHeavyAnimating st.

Definition getIsHeavyAnimating_once (st : Store) : Store :=
  set_onceIdle (S (onceIdle st)) st.

(** [callbacks.forEach((cb) => cb(currentGlobal))] *)
Definition forEach_callback (st : Store) : Store :=
  foldl (fun s cb => run_callback cb s) st (callbacks st).

Definition runCallbacks (st : Store) : Store :=
  if forceOnHeavyAnimation st then
    forEach_callback (set_forceOnHeavyAnimation false st)
  else if getIsHeavyAnimating st then getIsHeavyAnimating_once st
  else forEach_callback st.

(** The end of a scheduling tick. *)
Definition tickEnd (st : Store) : Store :=
  if throttleWaiting st then runCallbacks (set_throttleWaiting false st) else st.

(** The gate turns busy. *)
Definition heavyAnimationStart (st : Store) : Store :=
  set_isHeavyAnimating true st.

(** The gate turns idle and fires every one-shot registration. *)
Definition heavyAnimationEnd (st : Store) : Store :=
  let st1 := set_onceIdle 0 (set_isHeavyAnimating false st) in
  Nat.iter (onceIdle st) runCallbacksThrottled st1.

(** ** The state cell: [setUntypedGlobal], [getUntypedGlobal] *)

(** The block under [if (DEBUG)], which checks and renews the stale-state
    marker, is dead in this build. *)
Definition setUntypedGlobal (newGlobal : value) (options : option ActionOptions)
  (st : Store) : Store :=
  if bool_decide (typeof newGlobal = "object")
     && negb (strict_eq newGlobal (currentGlobal st))
  then
    let st1 := set_currentGlobal newGlobal st in
    if opt_flag optForceSyncOnIOs options then
      runCallbacks (set_forceOnHeavyAnimation true st1)
    else
      runCallbacksThrottled
        (if opt_flag optForceOnHeavyAnimation options
         then set_forceOnHeavyAnimation true st1
         else st1)
  else st.

(** In this build the function only returns the live state. *)
Definition getUntypedGlobal (st : Store) : value := currentGlobal st.

Definition forceOnHeavyAnimationOnce (st : Store) : Store :=
  set_forceOnHeavyAnimation true st.

(** ** The action dispatcher: [handleAction] *)

(** [actionHandlers] and [actions] are created as [{}]: besides the
    entries the module adds, [table[name]] finds the members every object
    inherits from [Object.prototype].  The maps of the embedding hold the
    entries the module adds; these are the inherited names. *)
Definition inherited_names : list string :=
  ["constructor"; "toString"; "toLocaleString"; "valueOf"; "hasOwnProperty";
   "isPrototypeOf"; "propertyIsEnumerable"; "__proto__"; "__defineGetter__";
   "__defineSetter__"; "__lookupGetter__"; "__lookupSetter__"].

Definition inherited (name : string) : bool := bool_decide (name ∈ inherited_names).

(** [actions[name](payload, options)] where the module has added no entry
    under [name].  Calling [undefined] throws a TypeError; so does calling
    [__proto__], which is not a function, and [__defineGetter__] and
    [__defineSetter__], which want a function where the options are
    passed.  The other inherited members return, given a payload that
    converts to a property key, and leave the module alone. *)
Definition missing_action_returns (name : string) : bool :=
  inherited name
  && negb (bool_decide (name ∈ ["__proto__"; "__defineGetter__"; "__defineSetter__"])).

Inductive outcome (A : Type) : Type :=
| Done (a : A) (st : Store)
| Threw (err : value) (st : Store)
| OutOfFuel.

Arguments Done {A} a st.
Arguments Threw {A} err st.
Arguments OutOfFuel {A}.

(** What calling something that is not a function throws. *)
Definition TypeError : value := VStr "TypeError".

Section Dispatcher.

(** The entry points stored in [actions]: each calls [handleAction]. *)
Variable dispatch : string -> value -> option ActionOptions -> Store -> outcome unit.

Fixpoint run_hprog (p : hprog) (st : Store) : outcome value :=
  match p with
  | HReturn response => Done response st
  | HThrow err => Threw err st
  | HGetGlobal k => run_hprog (k (getUntypedGlobal st)) st
  | HSetGlobal newGlobal options k =>
      run_hprog k (setUntypedGlobal newGlobal options st)
  | HDispatch name payload options k =>
      match actionHandlers st !! name with
      | None => if missing_action_returns name then run_hprog k st else Threw TypeError st
      | Some _ =>
          match dispatch name payload options st with
          | Done _ st' => run_hprog k st'
          | Threw err st' => Threw err st'
          | OutOfFuel => OutOfFuel
          end
      end
  end.

(** The arrow function given to [forEach]. *)
Definition call_handler (q : QueuedAction) (index : nat) (handler : ActionHandler)
  (st : Store) : outcome unit :=
  let global := if DEBUG then getUntypedGlobal st else currentGlobal st in
  match run_hprog (handler global (qpayload q))
          (emit [EvHandler (qname q) (qpayload q) index global] st) with
  | Done response st1 =>
      if negb (truthy response) || is_thenable response then Done tt st1
      else Done tt (setUntypedGlobal response (qoptions q) st1)
  | Threw err st1 => Threw err st1
  | OutOfFuel => OutOfFuel
  end.

Fixpoint forEach_handler (q : QueuedAction) (index : nat) (handlers : list ActionHandler)
  (st : Store) : outcome unit :=
  match handlers with
  | [] => Done tt st
  | handler :: rest =>
      match call_handler q index handler st with
      | Done _ st1 => forEach_handler q (S index) rest st1
      | other => other
      end
  end.

(** The closure pushed by [handleAction]:
    [actionHandlers[name]?.forEach(...)].  Under an inherited name the
    table holds a member that is neither nullish nor an array: it has no
    [forEach], and the call throws. *)
Definition run_queued (q : QueuedAction) (st : Store) : outcome unit :=
  match actionHandlers st !! qname q with
  | None => if inherited (qname q) then Threw TypeError st else Done tt st
  | Some handlers => forEach_handler q 0 handlers st
  end.

(** [while (actionQueue.length) { actionQueue[0](); actionQueue.shift(); }] *)
Fixpoint drain (n : nat) (st : Store) : outcome unit :=
  match actionQueue st with
  | [] => Done tt st
  | q :: _ =>
      match n with
      | 0 => OutOfFuel
      | S n' =>
          match run_queued q st with
          | Done _ st1 => drain n' (set_actionQueue (tail (actionQueue st1)) st1)
          | other => other
          end
      end
  end.

End Dispatcher.

(** [finally { actionQueue = []; }] *)
Definition finally_reset (o : outcome unit) : outcome unit :=
  match o with
  | Done a st => Done a (set_actionQueue [] st)
  | Threw err st => Threw err (set_actionQueue [] st)
  | OutOfFuel => OutOfFuel
  end.

(** [actionQueue.push(() => ...)] *)
Definition enqueue_action (name : string) (payload : value)
  (options : option ActionOptions) (st : Store) : Store :=
  let q := {| qname := name; qpayload := payload; qoptions := options |} in
  emit [EvEnqueue name payload] (set_actionQueue (actionQueue st ++ [q]) st).

(** [fuel] bounds the iterations of the drain loop, which need not end: a
    handler may dispatch its own action again. *)
Fixpoint handleAction (fuel : nat) (name : string) (payload : value)
  (options : option ActionOptions) (st : Store) : outcome unit :=
  match fuel with
  | 0 => OutOfFuel
  | S fuel' =>
      let st1 := enqueue_action name payload options st in
      if Nat.eqb (length (actionQueue st1)) 1 then
        finally_reset (drain (handleAction fuel') fuel' (emit [EvDrainBegin] st1))
      else Done tt st1
  end.

(** [addUntypedActionHandler]: the first registration under a name creates
    the list (and the [actions] entry); every registration pushes.  Under
    an inherited name [actionHandlers[name]] is truthy from the start, so
    no list is created, and the inherited member has no [push]: the call
    throws and nothing is registered. *)
Definition addUntypedActionHandler (name : string) (handler : ActionHandler)
  (st : Store) : outcome unit :=
  match actionHandlers st !! name with
  | Some handlers =>
      Done tt (set_actionHandlers (<[name := handlers ++ [handler]]> (actionHandlers st)) st)
  | None =>
      if inherited name then Threw TypeError st
      else Done tt (set_actionHandlers (<[name := [handler]]> (actionHandlers st)) st)
  end.

(** [addUntypedActionHandler] called for each (name, handler) in turn, as
    long as the calls return. *)
Fixpoint register_all (regs : list (string * ActionHandler)) (st : Store) : outcome unit :=
  match regs with
  | [] => Done tt st
  | (name, handler) :: rest =>
      match addUntypedActionHandler name handler st with
      | Done _ st1 => register_all rest st1
      | other => other
      end
  end.

(** [getUntypedActions()[name](payload, options)] from outside a handler. *)
Definition callAction (fuel : nat) (name : string) (payload : value)
  (options : option ActionOptions) (st : Store) : outcome unit :=
  match actionHandlers st !! name with
  | None => if missing_action_returns name then Done tt st else Threw TypeError st
  | Some _ => handleAction fuel name payload options st
  end.

Definition addCallback (cb : Callback) (st : Store) : Store :=
  set_callbacks (callbacks st ++ [cb]) st.

(** [indexOf] then [splice(index, 1)]: the first occurrence goes. *)
Fixpoint remove_first (cb : Callback) (l : list Callback) : list Callback :=
  match l with
  | [] => []
  | x :: rest => if decide (x = cb) then rest else x :: remove_first cb rest
  end.

Definition removeCallback (cb : Callback) (st : Store) : Store :=
  set_callbacks (remove_first cb (callbacks st)) st.

(** ** The subscription registry: [withUntypedGlobal] *)

(** [containers] is a [Map]: keys are unique and iteration follows
    insertion order. *)
Fixpoint containers_get (id : string) (cs : list (string * Container)) : option Container :=
  match cs with
  | [] => None
  | (k, c) :: rest => if decide (k = id) then Some c else containers_get id rest
  end.

Fixpoint containers_set (id : string) (c : Container) (cs : list (string * Container))
  : list (string * Container) :=
  match cs with
  | [] => [(id, c)]
  | (k, c0) :: rest =>
      if decide (k = id) then (k, c) :: rest else (k, c0) :: containers_set id c rest
  end.

Definition containers_delete (id : string) (cs : list (string * Container))
  : list (string * Container) :=
  filter (fun kc => kc.1 ≠ id) cs.

(** The body of [TeactNContainer] between fetching the container and
    rendering the component: derive the props when there are none yet, or
    when the own props changed and the container is active; then store the
    own props. *)
Definition render_container (mapStateToProps0 : MapStateToProps) (props : Props)
  (global : value) (container : Container) : Container * list event :=
  let '(recompute, c1) :=
    match mappedProps container with
    | None => (true, container)
    | Some _ =>
        if negb (arePropsShallowEqual (ownProps container) props)
        then activateContainer container global props
        else (false, container)
    end in
  let '(c2, evs) :=
    if recompute then
      match mapStateToProps0 global props with
      | MProps p => (set_mappedProps (Some p) c1, [])
      | MThrow err => (c1, [EvError err])
      end
    else (c1, []) in
  (set_ownProps props c2, evs).

(** One render of [TeactNContainer] for the subscriber [id]. *)
Definition renderContainer (id : string) (mapStateToProps0 : MapStateToProps)
  (activationFn0 : option ActivationFn) (props : Props) (st : Store) : Store :=
  let container :=
    match containers_get id (containers st) with
    | Some c => c
    | None =>
        {| mapStateToProps := mapStateToProps0; activationFn := activationFn0;
           stuckTo := VUndefined; ownProps := props; mappedProps := None |}
    end in
  let '(c, evs) := render_container mapStateToProps0 props (currentGlobal st) container in
  emit evs (set_containers (containers_set id c (containers st)) st).

(** [useUnmountCleanup(() => containers.delete(id))] *)
Definition unmountContainer (id : string) (st : Store) : Store :=
  set_containers (containers_delete id (containers st)) st.

(** ** Public operations and reachable states *)

Inductive op : Type :=
| OpSetGlobal (newGlobal : value) (options : option ActionOptions)
| OpGetGlobal
| OpAction (name : string) (payload : value) (options : option ActionOptions)
| OpAddActionHandler (name : string) (handler : ActionHandler)
| OpAddCallback (id : nat)
| OpRemoveCallback (id : nat)
| OpForceOnHeavyAnimationOnce
| OpRender (id : string) (m : MapStateToProps) (a : option ActivationFn) (props : Props)
| OpUnmount (id : string)
| OpTickEnd
| OpHeavyAnimationStart
| OpHeavyAnimationEnd.

Definition run_op (fuel : nat) (o : op) (st : Store) : outcome unit :=
  match o with
  | OpSetGlobal v options => Done tt (setUntypedGlobal v options st)
  | OpGetGlobal => Done tt st
  | OpAction name payload options => callAction fuel name payload options st
  | OpAddActionHandler name handler => addUntypedActionHandler name handler st
  | OpAddCallback id => Done tt (addCallback (CbExternal id) st)
  | OpRemoveCallback id => Done tt (removeCallback (CbExternal id) st)
  | OpForceOnHeavyAnimationOnce => Done tt (forceOnHeavyAnimationOnce st)
  | OpRender id m a props => Done tt (renderContainer id m a props st)
  | OpUnmount id => Done tt (unmountContainer id st)
  | OpTickEnd => Done tt (tickEnd st)
  | OpHeavyAnimationStart => Done tt (heavyAnimationStart st)
  | OpHeavyAnimationEnd => Done tt (heavyAnimationEnd st)
  end.

(** The state an operation leaves behind, whether it returned or threw. *)
Definition final_store (o : outcome unit) : option Store :=
  match o with
  | Done _ st => Some st
  | Threw _ st => Some st
  | OutOfFuel => None
  end.

(** The module after the registrations [regs], made on a fresh module. *)
Definition registered (regs : list (string * ActionHandler)) : Store :=
  default initial_store (final_store (register_all regs initial_store)).

Inductive reachable : Store -> Prop :=
| reachable_init : reachable initial_store
| reachable_step (st st' : Store) (fuel : nat) (o : op) :
    reachable st -> final_store (run_op fuel o st) = Some st' -> reachable st'.

(** * Account settings: the request wrappers of [src/unnamed/part_000]

    The wrappers build a request, await [invokeRequest] and reshape the
    response.  What is embedded here is what two of them compute once the
    responses are in: [invokeRequest] answers with a response or with
    [undefined] ([None]), and the clock [getServerTime] (util/serverTime,
    not among the sources) is a parameter, one reading per call. *)

(** ** Notification settings *)

(** The three fields the wrappers read from and write to a peer's notify
    settings; each may be absent ([undefined]). *)
Record PeerNotifySettings : Type := {
  silent : value;
  muteUntil : value;
  showPreviews : value;
}.

Record NotificationSettings : Type := {
  hasContactJoinedNotifications : bool;
  hasPrivateChatsNotifications : bool;
  hasPrivateChatsMessagePreview : value;
  hasGroupNotifications : bool;
  hasGroupMessagePreview : value;
  hasBroadcastNotifications : bool;
  hasBroadcastMessagePreview : value;
}.

(** [silent || (typeof muteUntil === 'number' && getServerTime() < muteUntil)],
    as a truth value. *)
Definition muted_at (serverTime : Z) (settings : PeerNotifySettings) : bool :=
  truthy (silent settings)
  || match muteUntil settings with
     | VNum n => Z.ltb serverTime n
     | _ => false
     end.

(** [fetchNotificationSettings], from the four responses on: [None] is
    the [false] it returns when a settings response is missing. *)
Definition fetchNotificationSettings
  (isMutedContactSignUpNotification : value)
  (privateContactNotificationsSettings groupNotificationsSettings
     broadcastNotificationsSettings : option PeerNotifySettings)
  (timePrivate timeGroup timeBroadcast : Z) : option NotificationSettings :=
  match privateContactNotificationsSettings, groupNotificationsSettings,
        broadcastNotificationsSettings with
  | Some priv, Some group, Some broadcast =>
      Some {| hasContactJoinedNotifications := negb (truthy isMutedContactSignUpNotification);
              hasPrivateChatsNotifications := negb (muted_at timePrivate priv);
              hasPrivateChatsMessagePreview := showPreviews priv;
              hasGroupNotifications := negb (muted_at timeGroup group);
              hasGroupMessagePreview := showPreviews group;
              hasBroadcastNotifications := negb (muted_at timeBroadcast broadcast);
              hasBroadcastMessagePreview := showPreviews broadcast |}
  | _, _, _ => None
  end.

Inductive PeerType : Type := contact | group | broadcast.

Inductive InputNotifyPeer : Type :=
| InputNotifyUsers
| InputNotifyChats
| InputNotifyBroadcasts.

(** [updateNotificationSettings]: the peer and the settings of the request
    it sends.  [MAX_INT_32] (config) is not among the sources and is a
    parameter. *)
Definition updateNotificationSettings (MAX_INT_32 : Z) (peerType : PeerType)
  (isSilent shouldShowPreviews : value) : InputNotifyPeer * PeerNotifySettings :=
  let peer :=
    match peerType with
    | contact => InputNotifyUsers
    | group => InputNotifyChats
    | broadcast => InputNotifyBroadcasts
    end in
  (peer,
   {| showPreviews := shouldShowPreviews;
      silent := isSilent;
      muteUntil := VNum (if truthy isSilent then MAX_INT_32 else 0) |}).

(** ** Notification exceptions *)

Inductive NotifyPeer (P : Type) : Type :=
| NotifyPeerOf (peer : P)
| NotifyPeerOther.
Arguments NotifyPeerOf {P} peer.
Arguments NotifyPeerOther {P}.

(** An update is an [UpdateNotifySettings] or something else. *)
Inductive Update (P S : Type) : Type :=
| UpdateNotifySettings (peer : NotifyPeer P) (notifySettings : S)
| UpdateOther.
Arguments UpdateNotifySettings {P S} peer notifySettings.
Arguments UpdateOther {P S}.

(** The response to [GetNotifyExceptions]: [Updates] and
    [UpdatesCombined] carry a list of updates, anything else (also
    [undefined]) does not. *)
Inductive UpdatesResult (P S : Type) : Type :=
| Updates (updates : list (Update P S))
| UpdatesCombined (updates : list (Update P S))
| UpdatesOther.
Arguments Updates {P S} updates.
Arguments UpdatesCombined {P S} updates.
Arguments UpdatesOther {P S}.

(** The reducer of [fetchNotificationExceptions]: [acc.push] for an
    [UpdateNotifySettings] on a [NotifyPeer], the accumulator as it is
    for any other update. *)
Definition push_exception {P S E : Type} (buildApiNotifyException : S -> P -> E)
  (acc : list E) (update : Update P S) : list E :=
  match update with
  | UpdateNotifySettings (NotifyPeerOf peer) notifySettings =>
      acc ++ [buildApiNotifyException notifySettings peer]
  | _ => acc
  end.

(** [fetchNotificationExceptions], from the response on;
    [buildApiNotifyException] (apiBuilders/misc) is a parameter. *)
Definition fetchNotificationExceptions {P S E : Type}
  (buildApiNotifyException : S -> P -> E) (result : UpdatesResult P S)
  : option (list E) :=
  match result with
  | Updates updates | UpdatesCombined updates =>
      Some (foldl (push_exception buildApiNotifyException) [] updates)
  | UpdatesOther => None
  end.

(** The peer and settings of an update that sets a peer's notify
    settings. *)
Definition notify_exception_of {P S : Type} (update : Update P S) : option (S * P) :=
  match update with
  | UpdateNotifySettings (NotifyPeerOf peer) notifySettings => Some (notifySettings, peer)
  | _ => None
  end.

(** ** Language packs *)

(** [Object.assign(target, source)]: the source's entries win. *)
Definition object_assign {V : Type} (target source : gmap string V) : gmap string V :=
  source ∪ target.

(** [oldFetchLangPack], from the responses on, one per source pack in the
    order of [sourceLangPacks]: the object it returns under [langPack], or
    [None] for [undefined].  [oldBuildLangPack] (apiBuilders/misc) is not
    among the sources and is a parameter. *)
Definition oldFetchLangPack {R V : Type} (oldBuildLangPack : R -> gmap string V)
  (results : list (option R)) : option (gmap string V) :=
  let collections := map oldBuildLangPack (omap id results) in
  match collections with
  | [] => None
  | _ => Some (foldl object_assign ∅ (reverse collections))
  end.

(** The value under a key in the first collection that has the key. *)
Fixpoint first_defined {V : Type} (k : string) (collections : list (gmap string V))
  : option V :=
  match collections with
  | [] => None
  | c :: rest =>
      match c !! k with
      | Some v => Some v
      | None => first_defined k rest
      end
  end.

(** * Definitions the statements use *)

(** ** Frames *)

(** [f] relates the store it starts from to the store it leaves behind,
    whether it returns or throws. *)
Definition respects (R : Store -> Store -> Prop) {A : Type}
  (f : Store -> outcome A) : Prop :=
  forall st,
    match f st with
    | Done _ st' => R st st'
    | Threw _ st' => R st st'
    | OutOfFuel => True
    end.

(** Everything in the store but the registry and the log. *)
Definition outside_registry (st : Store) :=
  (currentGlobal st, forceOnHeavyAnimation st, actionHandlers st, callbacks st,
   actionQueue st, throttleWaiting st, isHeavyAnimating st, onceIdle st).

(** [st'] is [st] with [evs] logged and [items] pushed on the queue, the
    handler table being the same. *)
Definition extends (st st' : Store) (evs : list event) (items : list QueuedAction) : Prop :=
  log st' = log st ++ evs
  /\ actionQueue st' = actionQueue st ++ items
  /\ actionHandlers st' = actionHandlers st.

(** ** Reading the log *)

Definition is_notify (id : string) (ev : event) : bool :=
  match ev with
  | EvNotify k => bool_decide (k = id)
  | _ => false
  end.

Definition is_mapper (id : string) (ev : event) : bool :=
  match ev with
  | EvMapper k => bool_decide (k = id)
  | _ => false
  end.

Definition is_error (ev : event) : bool :=
  match ev with
  | EvError _ => true
  | _ => false
  end.

(** The events a pass over the callbacks can log. *)
Definition is_pass_event (ev : event) : bool :=
  match ev with
  | EvPass _ | EvMapper _ | EvNotify _ | EvError _ | EvCallback _ _ => true
  | _ => false
  end.

Definition count (f : event -> bool) (evs : list event) : nat :=
  length (List.filter f evs).

(** The dispatches enqueued, the handler calls made and the drains
    started, as the log records them. *)
Fixpoint enqueued (evs : list event) : list (string * value) :=
  match evs with
  | [] => []
  | EvEnqueue name payload :: rest => (name, payload) :: enqueued rest
  | _ :: rest => enqueued rest
  end.

Fixpoint handled (evs : list event) : list (string * value * nat) :=
  match evs with
  | [] => []
  | EvHandler name payload index _ :: rest => (name, payload, index) :: handled rest
  | _ :: rest => handled rest
  end.

Fixpoint drains (evs : list event) : nat :=
  match evs with
  | [] => 0
  | EvDrainBegin :: rest => S (drains rest)
  | _ :: rest => drains rest
  end.

Definition item_key (q : QueuedAction) : string * value := (qname q, qpayload q).

(** ** The shallow-equality gate, key by key *)

(** Two props objects agree at a key when both lack it or both hold
    strictly equal values under it. *)
Definition same_at (a b : Props) (k : string) : Prop :=
  match a !! k, b !! k with
  | Some x, Some y => strict_eq x y = true
  | None, None => True
  | _, _ => False
  end.


(** ** The latch, as specified *)

(** The [stickToFirst] calls one activation makes: (candidate, returned). *)
Definition activation_calls (container : Container) (global : value) (props : Props)
  : list (value * value) :=
  match activationFn container with
  | None => []
  | Some f => (run_aprog (stuckTo container) (f global props) (stuckTo container)).2
  end.

(** A sequence of activations of one container, each on its own state and
    own props: all the [stickToFirst] calls in order, and the container at
    the end. *)
Fixpoint activate_seq (container : Container) (inputs : list (value * Props))
  : list (value * value) * Container :=
  match inputs with
  | [] => ([], container)
  | (global, props) :: rest =>
      let calls := activation_calls container global props in
      let '(calls', final) := activate_seq (activateContainer container global props).2 rest in
      (calls ++ calls', final)
  end.

(** The latch as the specification words it, consulted and updated call
    by call: nothing latched and a non-empty candidate latches it and
    answers true; otherwise the answer is true when the candidate is
    non-empty and equals the latched value. *)
Fixpoint latch_spec (latched : option value) (candidates : list value)
  : list bool * option value :=
  match candidates with
  | [] => ([], latched)
  | v :: rest =>
      let '(answer, latched') :=
        match latched with
        | None => if truthy v then (true, Some v) else (false, None)
        | Some l => (truthy v && strict_eq l v, Some l)
        end in
      let '(answers, final) := latch_spec latched' rest in
      (answer :: answers, final)
  end.

(** [stuckTo] holds a latched value when it is truthy. *)
Definition latched_of (stuckTo : value) : option value :=
  if truthy stuckTo then Some stuckTo else None.

(** The call returned [true]. *)
Definition returned_true (ret : value) : bool := bool_decide (ret = VBool true).

(** The calls [calls] of a run that started with [latched] and left
    [cur'] in [stuckTo] are those of the latch as specified: the same
    answers, the same latched value at the end, and a boolean answer to
    every non-empty candidate. *)
Definition latch_conforms (latched : option value) (cur' : value)
  (calls : list (value * value)) : Prop :=
  map returned_true (map snd calls) = (latch_spec latched (map fst calls)).1
  /\ latched_of cur' = (latch_spec latched (map fst calls)).2
  /\ Forall (fun call => truthy call.1 = true ->
                         call.2 = VBool true \/ call.2 = VBool false) calls.

(** Every non-empty candidate the activation body passes to
    [stickToFirst] is [x], however often it passes it and whatever the
    calls answer. *)
Fixpoint passes_only (x : value) (p : aprog) : Prop :=
  match p with
  | ARet _ => True
  | AStick v k => (truthy v = true -> v = x) /\ forall ret, passes_only x (k ret)
  end.

(** The evaluation does not claim two values at once: it is entered with
    a value latched, or all its non-empty candidates are the same value. *)
Definition single_claim (c : Container) (global : value) (props : Props) : Prop :=
  truthy (stuckTo c) = true
  \/ match activationFn c with
     | None => True
     | Some f => exists x, passes_only x (f global props)
     end.

(** No evaluation of the sequence claims two values at once. *)
Fixpoint single_claims (c : Container) (inputs : list (value * Props)) : Prop :=
  match inputs with
  | [] => True
  | (global, props) :: rest =>
      single_claim c global props
      /\ single_claims (activateContainer c global props).2 rest
  end.

(** ** The dispatcher's contract, as specified *)

(** The handler calls one dispatch is due: every handler registered under
    its name, once, in registration order. *)
Definition expected_runs (handlers : gmap string (list ActionHandler))
  (item : string * value) : list (string * value * nat) :=
  map (fun index => (item.1, item.2, index))
    (seq 0 (length (default [] (handlers !! item.1)))).

(** A dispatch made while the queue is not empty only enqueues. *)
Definition only_enqueues
  (dispatch : string -> value -> option ActionOptions -> Store -> outcome unit) : Prop :=
  forall name payload options st,
    actionQueue st <> [] ->
    dispatch name payload options st = OutOfFuel
    \/ dispatch name payload options st = Done tt (enqueue_action name payload options st).

(** Whatever [dispatch] computes without running out of fuel,
    [dispatch'] computes too. *)
Definition refines
  (dispatch dispatch' : string -> value -> option ActionOptions -> Store -> outcome unit)
  : Prop :=
  forall name payload options st,
    dispatch name payload options st <> OutOfFuel ->
    dispatch' name payload options st = dispatch name payload options st.

(** The handler body dispatches no action. *)
Fixpoint no_dispatch (p : hprog) : Prop :=
  match p with
  | HReturn _ | HThrow _ => True
  | HGetGlobal k => forall v, no_dispatch (k v)
  | HSetGlobal _ _ k => no_dispatch k
  | HDispatch _ _ _ _ => False
  end.

(** [st'] is [st] after the handler calls [runs], with the dispatches
    made meanwhile appended to the queue and no drain started. *)
Definition pushed (st st' : Store) (runs : list (string * value * nat)) : Prop :=
  exists evs items,
    extends st st' evs items
    /\ enqueued evs = map item_key items
    /\ handled evs = runs
    /\ drains evs = 0.



(** ** Within a tick, within a busy period *)




(** ** Example stores *)


(** A store whose first pass has consumed the initial override and whose
    gate has then turned busy. *)
Definition busy_disarmed : Store :=
  heavyAnimationStart (tickEnd (setUntypedGlobal (VObj 1) None initial_store)).

(** A registry of three subscribers [X], [Y], [Z] mounted on the initial
    state: [X] and [Z] show the state object, [Y] does too but its mapper
    throws on any state other than the initial one. *)
Definition mapper_of_global : MapStateToProps :=
  fun global _ => MProps {[ "value" := global ]}.

Definition mapper_unless_replaced : MapStateToProps :=
  fun global _ =>
    if strict_eq global (VObj 0) then MProps {[ "value" := global ]}
    else MThrow (VStr "boom").

Definition store_xyz : Store :=
  renderContainer "Z" mapper_of_global None ∅
    (renderContainer "Y" mapper_unless_replaced None ∅
       (renderContainer "X" mapper_of_global None ∅ initial_store)).

(** [X] as it stands in that registry. *)
Definition container_x : Container :=
  {| mapStateToProps := mapper_of_global; activationFn := None;
     stuckTo := VUndefined; ownProps := ∅;
     mappedProps := Some {[ "value" := VObj 0 ]} |}.

(** [Y] as it stands in that registry. *)
Definition container_y : Container :=
  {| mapStateToProps := mapper_unless_replaced; activationFn := None;
     stuckTo := VUndefined; ownProps := ∅;
     mappedProps := Some {[ "value" := VObj 0 ]} |}.

(** A pass over that registry once the state has been replaced. *)
Definition pass_xyz : list (string * Container) * list event :=
  updateContainers_loop (VObj 1) (containers store_xyz).

(** A container just mounted, before its first derivation. *)
Definition fresh_container (a : option ActivationFn) : Container :=
  {| mapStateToProps := mapper_of_global; activationFn := a;
     stuckTo := VUndefined; ownProps := ∅; mappedProps := None |}.

(** An activation function that passes "a" and then "b" to
    [stickToFirst] in one evaluation. *)
Definition sticks_twice : ActivationFn :=
  fun _ _ => AStick (VStr "a") (fun _ => AStick (VStr "b") (fun ret => ARet ret)).

(** An activation function that claims the chat named by the state. *)
Definition sticks_to_global : ActivationFn :=
  fun global _ => AStick global (fun ret => ARet ret).

(** Action [A] has two handlers, the first of which dispatches [B] before
    returning a new state; [B] has one handler. *)
Definition handler_a1 : ActionHandler :=
  fun _ _ => HDispatch "B" VUndefined None (HReturn (VObj 1)).

Definition handler_a2 : ActionHandler := fun _ _ => HReturn (VObj 2).

Definition handler_b : ActionHandler := fun _ _ => HReturn (VObj 3).

Definition store_ab : Store :=
  registered [("A", handler_a1); ("A", handler_a2); ("B", handler_b)].

(** The store a dispatch of [A] leaves. *)
Definition after_ab : Store :=
  match handleAction 5 "A" VUndefined None store_ab with
  | Done _ st => st
  | _ => store_ab
  end.




(** Action [A]'s only handler dispatches [B] and then throws. *)
Definition handler_throws : ActionHandler :=
  fun _ _ => HDispatch "B" VUndefined None (HThrow (VStr "boom")).

Definition store_fail : Store :=
  registered [("A", handler_throws); ("B", handler_b)].





(** The store a dispatch of [A] leaves when its handler has thrown. *)
Definition after_fail : Store :=
  match handleAction 5 "A" VUndefined None store_fail with
  | Threw _ st => st
  | _ => store_fail
  end.

(** ** Sequences of public calls *)

(** The handlers of [regs] registered under [name], in order. *)
Definition handlers_named (name : string) (regs : list (string * ActionHandler))
  : list ActionHandler :=
  map snd (filter (fun r => r.1 = name) regs).

(** [setUntypedGlobal] called for each (state, options) in turn. *)
Definition replace_all (calls : list (value * option ActionOptions)) (st : Store) : Store :=
  foldl (fun s call => setUntypedGlobal call.1 call.2 s) st calls.

(** [updateContainers] was entered. *)
Definition is_pass (ev : event) : bool :=
  match ev with
  | EvPass _ => true
  | _ => false
  end.

(** A scheduling tick in which a pass was requested. *)
Definition request_tick (st : Store) : Store :=
  tickEnd (runCallbacksThrottled st).

(** A call of [addCallback] or [removeCallback] from outside the module,
    with one of the caller's functions. *)
Inductive callback_call : Type :=
| AddCallback (id : nat)
| RemoveCallback (id : nat).

Definition apply_callback_call (st : Store) (call : callback_call) : Store :=
  match call with
  | AddCallback id => addCallback (CbExternal id) st
  | RemoveCallback id => removeCallback (CbExternal id) st
  end.

(** What the call does to the callbacks listed after the pass. *)
Definition after_the_pass (listed : list Callback) (call : callback_call)
  : list Callback :=
  match call with
  | AddCallback id => listed ++ [CbExternal id]
  | RemoveCallback id => remove_first (CbExternal id) listed
  end.

(** What one run of the callbacks logs: the pass over the containers,
    then each added callback, called on the live state. *)
Definition callbacks_log (st : Store) (ids : list nat) : list event :=
  EvPass (currentGlobal st)
  :: (updateContainers_loop (currentGlobal st) (containers st)).2
  ++ map (fun id => EvCallback id (currentGlobal st)) ids.

(** A store with two added callbacks, and one where the first of them
    has been added a second time. *)
Definition store_two_callbacks : Store :=
  addCallback (CbExternal 8) (addCallback (CbExternal 7) initial_store).

Definition store_callback_twice : Store :=
  addCallback (CbExternal 7) store_two_callbacks.

(** Two registry entries are the same subscriber with the same mapper,
    activation function and own props. *)
Definition same_subscriber (a b : string * Container) : Prop :=
  a.1 = b.1
  /\ mapStateToProps a.2 = mapStateToProps b.2
  /\ activationFn a.2 = activationFn b.2
  /\ ownProps a.2 = ownProps b.2.

(** No value of the props object is NaN. *)
Definition nan_free (p : Props) : Prop := forall k, p !! k <> Some VNaN.

(** A value held by reference. *)
Definition is_reference (v : value) : bool :=
  match v with
  | VObj _ | VThenable _ | VFun _ => true
  | _ => false
  end.

(** A value the mapper can return without building it: a primitive, the
    state object, or a value of the own props. *)
Definition handed_on (global : value) (props : Props) (v : value) : Prop :=
  is_reference v = false \/ v = global \/ exists k, props !! k = Some v.

(** The container has no activation function and, on this state, its
    mapper throws or returns props without NaN that hold only values it
    was handed or primitives.  In the embedding a mapper is a function of
    the state and the own props: called twice on the same arguments it
    returns the same props, references included.  A mapper that builds a
    new object or array at each call is no such function; the last
    condition keeps to mappers that build nothing. *)
Definition settles (global : value) (c : Container) : Prop :=
  activationFn c = None
  /\ forall new,
       mapStateToProps c global (ownProps c) = MProps new ->
       nan_free new
       /\ forall k v, new !! k = Some v -> handed_on global (ownProps c) v.

(** [X] and [Z] of the registry above, without [Y]. *)
Definition registry_xz : list (string * Container) :=
  [("X", container_x); ("Z", container_x)].

(** A mapper that always returns a NaN under "ratio", and a container
    that already holds those props. *)
Definition mapper_nan : MapStateToProps :=
  fun _ _ => MProps {[ "ratio" := VNaN ]}.

Definition container_nan : Container :=
  {| mapStateToProps := mapper_nan; activationFn := None; stuckTo := VUndefined;
     ownProps := ∅; mappedProps := Some {[ "ratio" := VNaN ]} |}.

(** A container whose latch holds "b" and whose activation function
    passes two other values in each evaluation. *)
Definition container_latched : Container :=
  {| mapStateToProps := mapper_of_global; activationFn := Some sticks_twice;
     stuckTo := VStr "b"; ownProps := ∅; mappedProps := None |}.

(** What the first render of a subscriber registers. *)
Definition mounted (m : MapStateToProps) (a : option ActivationFn) (props : Props)
  (derived : option Props) : Container :=
  {| mapStateToProps := m; activationFn := a; stuckTo := VUndefined;
     ownProps := props; mappedProps := derived |}.

(** A mapper that throws. *)
Definition mapper_throws : MapStateToProps := fun _ _ => MThrow (VStr "boom").

(** The ids of the mounted subscribers, in registration order. *)
Definition keys (st : Store) : list string := map fst (containers st).

(** A handler that only computes a response from the state and the
    payload. *)
Definition pure_handler (f : value -> value -> value) : ActionHandler :=
  fun global payload => HReturn (f global payload).

(** The state after a response has been processed: the response when it
    is a state object that is not a thenable, the state as it was
    otherwise. *)
Definition reduce_response (global response : value) : value :=
  if truthy response && negb (is_thenable response)
     && bool_decide (typeof response = "object")
  then response else global.

(** Action [count] has three handlers: the first returns a new state, the
    second returns nothing, the third returns a state that depends on the
    one it receives. *)
Definition store_reducers : Store :=
  registered
    [("count", pure_handler (fun _ _ => VObj 5));
     ("count", pure_handler (fun _ _ => VUndefined));
     ("count", pure_handler
                 (fun g _ => match g with VObj n => VObj (n + 10) | _ => VUndefined end))].

(** * Properties *)

(** ** What every run of the dispatcher preserves *)

(** A relation between the store before and after that the three
    primitive effects of the dispatcher respect is respected by every
    run of a handler, of a queued closure, of the drain loop and of
    [handleAction], whether it returns or throws. *)
Section Preservation.

Variable R : Store -> Store -> Prop.
Hypothesis R_refl : forall st, R st st.
Hypothesis R_trans : forall a b c, R a b -> R b c -> R a c.
Hypothesis R_setGlobal : forall v o st, R st (setUntypedGlobal v o st).
Hypothesis R_emit : forall evs st, R st (emit evs st).
Hypothesis R_queue : forall q st, R st (set_actionQueue q st).

Section WithDispatch.

Variable dispatch : string -> value -> option ActionOptions -> Store -> outcome unit.
Hypothesis dispatch_R : forall n p o, respects R (dispatch n p o).

Lemma run_hprog_respects (p : hprog) : respects R (run_hprog dispatch p).
Proof.
  induction p as [r | e | k IH | v o k IH | n pl o k IH]; intros st; simpl.
  - apply R_refl.
  - apply R_refl.
  - apply IH.
  - specialize (IH (setUntypedGlobal v o st)).
    destruct (run_hprog dispatch k (setUntypedGlobal v o st)); eauto.
  - destruct (actionHandlers st !! n);
      [| destruct (missing_action_returns n); [apply IH | apply R_refl]].
    pose proof (dispatch_R n pl o st) as Hd.
    destruct (dispatch n pl o st) as [[] st1 | e st1 |]; auto.
    specialize (IH st1).
    destruct (run_hprog dispatch k st1); eauto.
Qed.

Lemma call_handler_respects q i h : respects R (call_handler dispatch q i h).
Proof.
  intros st. unfold call_handler.
  pose proof (run_hprog_respects (h (currentGlobal st) (qpayload q))
                (emit [EvHandler (qname q) (qpayload q) i (currentGlobal st)] st)) as Hr.
  destruct (run_hprog dispatch _ _) as [r st1 | e st1 |]; auto.
  - destruct (negb (truthy r) || is_thenable r); eauto.
  - eauto.
Qed.

Lemma forEach_handler_respects q hs : forall i, respects R (forEach_handler dispatch q i hs).
Proof.
  induction hs as [| h hs IH]; intros i st; simpl.
  - apply R_refl.
  - pose proof (call_handler_respects q i h st) as Hc.
    destruct (call_handler dispatch q i h st) as [[] st1 | e st1 |]; auto.
    specialize (IH (S i) st1).
    destruct (forEach_handler dispatch q (S i) hs st1); eauto.
Qed.

Lemma run_queued_respects q : respects R (run_queued dispatch q).
Proof.
  intros st. unfold run_queued.
  destruct (actionHandlers st !! qname q) as [hs |];
    [| destruct (inherited (qname q)); apply R_refl].
  apply forEach_handler_respects.
Qed.

Lemma drain_respects n : respects R (drain dispatch n).
Proof.
  induction n as [| n IH]; intros st; simpl.
  - destruct (actionQueue st); [apply R_refl | exact I].
  - destruct (actionQueue st) as [| q rest]; [apply R_refl |].
    pose proof (run_queued_respects q st) as Hq.
    destruct (run_queued dispatch q st) as [[] st1 | e st1 |]; auto.
    specialize (IH (set_actionQueue (tail (actionQueue st1)) st1)).
    destruct (drain dispatch n _); eauto.
Qed.

End WithDispatch.

Lemma handleAction_respects fuel : forall n p o, respects R (handleAction fuel n p o).
Proof.
  induction fuel as [| fuel IH]; intros n p o st; simpl; [exact I |].
  destruct (Nat.eqb _ 1).
  - match goal with |- context [drain ?d ?f ?s] =>
      pose proof (drain_respects d IH f s) as Hd; destruct (drain d f s) as [[] st1 | e st1 |]
    end; simpl; auto.
    + eapply R_trans; [| apply R_queue]. eapply R_trans; [| exact Hd].
      eapply R_trans; [| apply R_emit]. eapply R_trans; [| apply R_emit]. apply R_queue.
    + eapply R_trans; [| apply R_queue]. eapply R_trans; [| exact Hd].
      eapply R_trans; [| apply R_emit]. eapply R_trans; [| apply R_emit]. apply R_queue.
  - eapply R_trans; [| apply R_emit]. apply R_queue.
Qed.

Lemma callAction_respects fuel n p o : respects R (callAction fuel n p o).
Proof.
  intros st. unfold callAction.
  destruct (actionHandlers st !! n); [apply handleAction_respects |].
  destruct (missing_action_returns n); apply R_refl.
Qed.

End Preservation.

(** ** The recompute pass touches the registry and the log only *)

Ltac split_outside H :=
  unfold outside_registry in H; simpl in H;
  injection H as ? ? ? ? ? ? ? ?.

Lemma updateContainers_outside st :
  outside_registry (updateContainers st) = outside_registry st.
Proof.
  unfold updateContainers.
  destruct (updateContainers_loop (currentGlobal st) (containers st)); reflexivity.
Qed.

Lemma updateContainers_log st :
  exists evs, log (updateContainers st) = log st ++ EvPass (currentGlobal st) :: evs.
Proof.
  unfold updateContainers.
  destruct (updateContainers_loop (currentGlobal st) (containers st)) as [cs evs].
  exists evs. reflexivity.
Qed.

Lemma run_callback_outside cb st :
  outside_registry (run_callback cb st) = outside_registry st.
Proof. destruct cb; [apply updateContainers_outside | reflexivity]. Qed.

Lemma run_callback_log cb st :
  exists evs, log (run_callback cb st) = log st ++ evs.
Proof.
  destruct cb; simpl.
  - destruct (updateContainers_log st) as [evs H]. eauto.
  - eauto.
Qed.

Lemma foldl_run_callback_outside cbs : forall st,
  outside_registry (foldl (fun s cb => run_callback cb s) st cbs) = outside_registry st.
Proof.
  induction cbs as [| cb cbs IH]; intros st; simpl; [reflexivity |].
  rewrite IH. apply run_callback_outside.
Qed.

Lemma foldl_run_callback_log cbs : forall st,
  exists evs, log (foldl (fun s cb => run_callback cb s) st cbs) = log st ++ evs.
Proof.
  induction cbs as [| cb cbs IH]; intros st; simpl.
  - exists []. by rewrite app_nil_r.
  - destruct (IH (run_callback cb st)) as [evs2 H2].
    destruct (run_callback_log cb st) as [evs1 H1].
    exists (evs1 ++ evs2). by rewrite H2, H1, app_assoc.
Qed.

Lemma forEach_callback_outside st :
  outside_registry (forEach_callback st) = outside_registry st.
Proof. apply foldl_run_callback_outside. Qed.


Lemma runCallbacks_currentGlobal st :
  currentGlobal (runCallbacks st) = currentGlobal st.
Proof.
  unfold runCallbacks, getIsHeavyAnimating, getIsHeavyAnimating_once.
  destruct (forceOnHeavyAnimation st).
  - pose proof (forEach_callback_outside (set_forceOnHeavyAnimation false st)) as H.
    split_outside H. congruence.
  - destruct (isHeavyAnimating st); [reflexivity |].
    pose proof (forEach_callback_outside st) as H. split_outside H. congruence.
Qed.

Lemma runCallbacks_callbacks st :
  callbacks (runCallbacks st) = callbacks st.
Proof.
  unfold runCallbacks, getIsHeavyAnimating, getIsHeavyAnimating_once.
  destruct (forceOnHeavyAnimation st).
  - pose proof (forEach_callback_outside (set_forceOnHeavyAnimation false st)) as H.
    split_outside H. congruence.
  - destruct (isHeavyAnimating st); [reflexivity |].
    pose proof (forEach_callback_outside st) as H. split_outside H. congruence.
Qed.

Lemma runCallbacks_actionQueue st :
  actionQueue (runCallbacks st) = actionQueue st.
Proof.
  unfold runCallbacks, getIsHeavyAnimating, getIsHeavyAnimating_once.
  destruct (forceOnHeavyAnimation st).
  - pose proof (forEach_callback_outside (set_forceOnHeavyAnimation false st)) as H.
    split_outside H. congruence.
  - destruct (isHeavyAnimating st); [reflexivity |].
    pose proof (forEach_callback_outside st) as H. split_outside H. congruence.
Qed.

Lemma runCallbacks_actionHandlers st :
  actionHandlers (runCallbacks st) = actionHandlers st.
Proof.
  unfold runCallbacks, getIsHeavyAnimating, getIsHeavyAnimating_once.
  destruct (forceOnHeavyAnimation st).
  - pose proof (forEach_callback_outside (set_forceOnHeavyAnimation false st)) as H.
    split_outside H. congruence.
  - destruct (isHeavyAnimating st); [reflexivity |].
    pose proof (forEach_callback_outside st) as H. split_outside H. congruence.
Qed.

Lemma runCallbacks_log st : exists evs, log (runCallbacks st) = log st ++ evs.
Proof.
  unfold runCallbacks, getIsHeavyAnimating, getIsHeavyAnimating_once, forEach_callback.
  destruct (forceOnHeavyAnimation st).
  - apply (foldl_run_callback_log _ (set_forceOnHeavyAnimation false st)).
  - destruct (isHeavyAnimating st).
    + exists []. simpl. by rewrite app_nil_r.
    + apply foldl_run_callback_log.
Qed.

(** ** The state cell *)

Lemma setUntypedGlobal_guard_false newGlobal options st :
  bool_decide (typeof newGlobal = "object")
  && negb (strict_eq newGlobal (currentGlobal st)) = false ->
  setUntypedGlobal newGlobal options st = st.
Proof. intros H. unfold setUntypedGlobal. by rewrite H. Qed.

Lemma setUntypedGlobal_guard_true newGlobal options st :
  bool_decide (typeof newGlobal = "object")
  && negb (strict_eq newGlobal (currentGlobal st)) = true ->
  currentGlobal (setUntypedGlobal newGlobal options st) = newGlobal.
Proof.
  intros H. unfold setUntypedGlobal. rewrite H.
  destruct (opt_flag optForceSyncOnIOs options).
  - by rewrite runCallbacks_currentGlobal.
  - by destruct (opt_flag optForceOnHeavyAnimation options).
Qed.

Lemma setUntypedGlobal_callbacks v o st :
  callbacks (setUntypedGlobal v o st) = callbacks st.
Proof.
  unfold setUntypedGlobal. destruct (_ && _); [| reflexivity].
  destruct (opt_flag optForceSyncOnIOs o).
  - by rewrite runCallbacks_callbacks.
  - by destruct (opt_flag optForceOnHeavyAnimation o).
Qed.

Lemma setUntypedGlobal_actionQueue v o st :
  actionQueue (setUntypedGlobal v o st) = actionQueue st.
Proof.
  unfold setUntypedGlobal. destruct (_ && _); [| reflexivity].
  destruct (opt_flag optForceSyncOnIOs o).
  - by rewrite runCallbacks_actionQueue.
  - by destruct (opt_flag optForceOnHeavyAnimation o).
Qed.

Lemma setUntypedGlobal_actionHandlers v o st :
  actionHandlers (setUntypedGlobal v o st) = actionHandlers st.
Proof.
  unfold setUntypedGlobal. destruct (_ && _); [| reflexivity].
  destruct (opt_flag optForceSyncOnIOs o).
  - by rewrite runCallbacks_actionHandlers.
  - by destruct (opt_flag optForceOnHeavyAnimation o).
Qed.

Lemma setUntypedGlobal_log v o st :
  exists evs, log (setUntypedGlobal v o st) = log st ++ evs.
Proof.
  unfold setUntypedGlobal. destruct (_ && _).
  - destruct (opt_flag optForceSyncOnIOs o).
    + apply (runCallbacks_log (set_forceOnHeavyAnimation true (set_currentGlobal v st))).
    + exists []. rewrite app_nil_r. by destruct (opt_flag optForceOnHeavyAnimation o).
  - exists []. by rewrite app_nil_r.
Qed.

Lemma setUntypedGlobal_typeof v o st :
  typeof (currentGlobal st) = "object" ->
  typeof (currentGlobal (setUntypedGlobal v o st)) = "object".
Proof.
  intros Hst.
  destruct (bool_decide (typeof v = "object")
            && negb (strict_eq v (currentGlobal st))) eqn:Hg.
  - rewrite (setUntypedGlobal_guard_true _ _ _ Hg).
    apply andb_prop in Hg as [Hg _]. by apply bool_decide_eq_true in Hg.
  - by rewrite (setUntypedGlobal_guard_false _ _ _ Hg).
Qed.

(** ** Invariants of the reachable states *)

Lemma iter_runCallbacksThrottled n st :
  Nat.iter n runCallbacksThrottled st = if Nat.eqb n 0 then st else set_throttleWaiting true st.
Proof.
  induction n as [| n IH]; simpl; [reflexivity |].
  rewrite IH. destruct n; reflexivity.
Qed.

Lemma handleAction_queue_reset fuel name payload options st st' :
  actionQueue st = [] ->
  final_store (handleAction fuel name payload options st) = Some st' ->
  actionQueue st' = [].
Proof.
  intros Hq Hf. destruct fuel as [| fuel]; [discriminate |].
  simpl in Hf. rewrite Hq in Hf. simpl in Hf.
  destruct (drain _ _ _) as [[] s | e s |]; simpl in Hf; [| | discriminate];
    injection Hf as <-; reflexivity.
Qed.

Lemma run_op_respects (R : Store -> Store -> Prop) :
  (forall st, R st st) ->
  (forall a b c, R a b -> R b c -> R a c) ->
  (forall v o st, R st (setUntypedGlobal v o st)) ->
  (forall evs st, R st (emit evs st)) ->
  (forall q st, R st (set_actionQueue q st)) ->
  (forall hs st, R st (set_actionHandlers hs st)) ->
  (forall id st, R st (addCallback (CbExternal id) st)) ->
  (forall id st, R st (removeCallback (CbExternal id) st)) ->
  (forall b st, R st (set_forceOnHeavyAnimation b st)) ->
  (forall cs st, R st (set_containers cs st)) ->
  (forall st, R st (tickEnd st)) ->
  (forall b st, R st (set_isHeavyAnimating b st)) ->
  (forall n st, R st (set_onceIdle n st)) ->
  (forall b st, R st (set_throttleWaiting b st)) ->
  forall fuel o st st', final_store (run_op fuel o st) = Some st' -> R st st'.
Proof.
  intros Hrefl Htrans Hset Hemit Hq Hadd Hcb Hrm Hforce Hcs Htick Hheavy Honce Hthr
    fuel o st st' Hf.
  destruct o; simpl in Hf; try (injection Hf as <-);
    unfold forceOnHeavyAnimationOnce, unmountContainer, heavyAnimationStart; auto.
  - pose proof (callAction_respects R Hrefl Htrans Hset Hemit Hq fuel name payload options st) as H.
    destruct (callAction fuel name payload options st); simpl in Hf;
      [injection Hf as <- | injection Hf as <- | discriminate]; exact H.
  - unfold addUntypedActionHandler in Hf.
    destruct (actionHandlers st !! name); [| destruct (inherited name)];
      simpl in Hf; injection Hf as <-; auto.
  - unfold renderContainer. destruct (render_container _ _ _ _) as [c evs].
    eapply Htrans; [apply Hcs | apply Hemit].
  - unfold heavyAnimationEnd. rewrite iter_runCallbacksThrottled.
    destruct (Nat.eqb (onceIdle st) 0).
    + eapply Htrans; [apply Hheavy | apply Honce].
    + eapply Htrans; [apply Hheavy |]. eapply Htrans; [apply Honce | apply Hthr].
Qed.

Lemma tickEnd_callbacks st : callbacks (tickEnd st) = callbacks st.
Proof.
  unfold tickEnd. destruct (throttleWaiting st); [| reflexivity].
  by rewrite runCallbacks_callbacks.
Qed.

Lemma tickEnd_currentGlobal st : currentGlobal (tickEnd st) = currentGlobal st.
Proof.
  unfold tickEnd. destruct (throttleWaiting st); [| reflexivity].
  by rewrite runCallbacks_currentGlobal.
Qed.

Lemma tickEnd_actionQueue st : actionQueue (tickEnd st) = actionQueue st.
Proof.
  unfold tickEnd. destruct (throttleWaiting st); [| reflexivity].
  by rewrite runCallbacks_actionQueue.
Qed.


(** Between two public operations the action queue is empty. *)
Lemma reachable_actionQueue_empty st : reachable st -> actionQueue st = [].
Proof.
  induction 1 as [| st st' fuel o Hr IH Hf]; [reflexivity |].
  destruct o; simpl in Hf; try (injection Hf as <-); simpl; auto.
  - by rewrite setUntypedGlobal_actionQueue.
  - unfold callAction in Hf. destruct (actionHandlers st !! name).
    + eapply handleAction_queue_reset; eauto.
    + destruct (missing_action_returns name); simpl in Hf; by injection Hf as <-.
  - unfold addUntypedActionHandler in Hf.
    destruct (actionHandlers st !! name); [| destruct (inherited name)];
      simpl in Hf; by injection Hf as <-.
  - unfold renderContainer. destruct (render_container _ _ _ _) as [c evs]. exact IH.
  - by rewrite tickEnd_actionQueue.
  - unfold heavyAnimationEnd. rewrite iter_runCallbacksThrottled.
    destruct (Nat.eqb (onceIdle st) 0); exact IH.
Qed.

(** The live state always passes the guard of [setUntypedGlobal]. *)
Lemma reachable_typeof_object st :
  reachable st -> typeof (currentGlobal st) = "object".
Proof.
  induction 1 as [| st st' fuel o Hr IH Hf]; [reflexivity |].
  revert IH. pattern st, st'.
  eapply run_op_respects; [.. | exact Hf]; clear; simpl; auto.
  - intros v o st. apply setUntypedGlobal_typeof.
  - intros st. by rewrite tickEnd_currentGlobal.
Qed.

(** ** C1: the state cell replaces on a distinct object only *)

Lemma strict_eq_object_true v c :
  typeof v = "object" -> strict_eq v c = true -> v = c.
Proof.
  intros Ht He. destruct v; simpl in *; try discriminate;
    by apply bool_decide_eq_true in He.
Qed.

Lemma strict_eq_object_false v c :
  typeof v = "object" -> strict_eq v c = false -> v <> c.
Proof.
  intros Ht He. destruct v; simpl in *; try discriminate;
    by apply bool_decide_eq_false in He.
Qed.

Lemma setUntypedGlobal_object_read v o st :
  typeof v = "object" -> currentGlobal (setUntypedGlobal v o st) = v.
Proof.
  intros Ht.
  destruct (bool_decide (typeof v = "object")
            && negb (strict_eq v (currentGlobal st))) eqn:Hg.
  - by apply setUntypedGlobal_guard_true.
  - rewrite (setUntypedGlobal_guard_false _ _ _ Hg).
    apply andb_false_iff in Hg as [Hg | Hg].
    + apply bool_decide_eq_false in Hg. contradiction.
    + apply negb_false_iff in Hg. symmetry. by apply strict_eq_object_true.
Qed.

(** After any sequence of replaces with state objects, the state read is
    the one passed last. *)
Lemma replace_sequence_reads_last
  (calls : list (value * option ActionOptions)) (v : value)
  (o : option ActionOptions) (st : Store) :
  typeof v = "object" ->
  getUntypedGlobal
    (foldl (fun s call => setUntypedGlobal call.1 call.2 s) st (calls ++ [(v, o)]))
  = v.
Proof.
  intros Ht. rewrite foldl_app. simpl. by apply setUntypedGlobal_object_read.
Qed.

(** C1, as stated, fails: [undefined] is reference-unequal to the live
    state, yet after [setUntypedGlobal(undefined)] the live state read by
    [getUntypedGlobal] is still the initial object and not [undefined]. *)
Lemma C1_counterexample_undefined :
  strict_eq VUndefined (getUntypedGlobal initial_store) = false
  /\ getUntypedGlobal (setUntypedGlobal VUndefined None initial_store) = VObj 0
  /\ getUntypedGlobal (setUntypedGlobal VUndefined None initial_store) <> VUndefined.
Proof. repeat split. discriminate. Qed.

(** C1, amended: for every call [setUntypedGlobal(next, options)] the live
    state changes if and only if [next] has [typeof] "object" and is
    reference-unequal to the current live state; whenever [next] has
    [typeof] "object" the state read afterwards is [next]; passing the
    currently live value, or a value whose [typeof] is not "object",
    returns the store unchanged, so nothing is replaced and no pass is run
    or scheduled. *)
Theorem setUntypedGlobal_replaces_iff_distinct_object
  (st : Store) (newGlobal : value) (options : option ActionOptions) :
  (getUntypedGlobal (setUntypedGlobal newGlobal options st) <> getUntypedGlobal st
   <-> typeof newGlobal = "object" /\ strict_eq newGlobal (currentGlobal st) = false)
  /\ (typeof newGlobal = "object" ->
      getUntypedGlobal (setUntypedGlobal newGlobal options st) = newGlobal)
  /\ (strict_eq newGlobal (currentGlobal st) = true ->
      setUntypedGlobal newGlobal options st = st)
  /\ (typeof newGlobal <> "object" ->
      setUntypedGlobal newGlobal options st = st).
Proof.
  unfold getUntypedGlobal.
  destruct (bool_decide (typeof newGlobal = "object")
            && negb (strict_eq newGlobal (currentGlobal st))) eqn:Hg.
  - pose proof (setUntypedGlobal_guard_true _ options _ Hg) as Hset.
    apply andb_prop in Hg as [Ht He].
    apply bool_decide_eq_true in Ht. apply negb_true_iff in He.
    split; [| split; [| split]].
    + split; [done |]. intros _. rewrite Hset. by apply strict_eq_object_false.
    + done.
    + congruence.
    + done.
  - pose proof (setUntypedGlobal_guard_false _ options _ Hg) as Hset.
    rewrite Hset. split; [| split; [| split]].
    + split; [done |]. intros [Ht He].
      rewrite (bool_decide_eq_true_2 _ Ht), He in Hg. discriminate.
    + intros Ht. apply andb_false_iff in Hg as [Hg | Hg].
      * apply bool_decide_eq_false in Hg. contradiction.
      * apply negb_false_iff in Hg. symmetry. by apply strict_eq_object_true.
    + done.
    + done.
Qed.

(** The theorem at the initial store: a fresh object replaces the state,
    the live object and [undefined] leave the store as it is. *)
Lemma setUntypedGlobal_replaces_witness :
  getUntypedGlobal (setUntypedGlobal (VObj 7) None initial_store) = VObj 7
  /\ setUntypedGlobal (VObj 0) None initial_store = initial_store
  /\ setUntypedGlobal VUndefined None initial_store = initial_store.
Proof.
  split; [| split].
  - apply (proj1 (proj2
      (setUntypedGlobal_replaces_iff_distinct_object initial_store (VObj 7) None))).
    reflexivity.
  - apply (proj1 (proj2 (proj2
      (setUntypedGlobal_replaces_iff_distinct_object initial_store (VObj 0) None)))).
    reflexivity.
  - apply (proj2 (proj2 (proj2
      (setUntypedGlobal_replaces_iff_distinct_object initial_store VUndefined None)))).
    discriminate.
Defined.

(** ** C9: what the [typeof] guard lets through *)

(** C9, as stated, fails: [null] is not an object, but [typeof null] is
    "object"; [setUntypedGlobal(null)] on the initial store replaces the
    live state by [null] and schedules a pass, and the store reached has a
    live state that is not an object. *)
Lemma C9_counterexample_null :
  is_object VNull = false
  /\ reachable (setUntypedGlobal VNull None initial_store)
  /\ currentGlobal (setUntypedGlobal VNull None initial_store) = VNull
  /\ throttleWaiting initial_store = false
  /\ throttleWaiting (setUntypedGlobal VNull None initial_store) = true.
Proof.
  repeat split.
  apply (reachable_step initial_store _ 0 (OpSetGlobal VNull None));
    [apply reachable_init | reflexivity].
Qed.

(** C9, amended: [setUntypedGlobal] called with an argument whose [typeof]
    is not "object" returns the store unchanged (live state, scheduling
    and override flag included); and in every store reachable by public
    operations the live state has [typeof] "object". *)
Theorem setUntypedGlobal_typeof_guard :
  (forall st v o, typeof v <> "object" -> setUntypedGlobal v o st = st)
  /\ (forall st, reachable st -> typeof (currentGlobal st) = "object").
Proof.
  split.
  - intros st v o Ht. apply setUntypedGlobal_guard_false.
    apply andb_false_iff. left. by apply bool_decide_eq_false.
  - apply reachable_typeof_object.
Qed.

Lemma setUntypedGlobal_typeof_guard_witness :
  setUntypedGlobal (VNum 5) None initial_store = initial_store
  /\ typeof (currentGlobal (setUntypedGlobal (VObj 3) None initial_store)) = "object".
Proof.
  split.
  - apply (proj1 setUntypedGlobal_typeof_guard). discriminate.
  - apply (proj2 setUntypedGlobal_typeof_guard).
    apply (reachable_step initial_store _ 0 (OpSetGlobal (VObj 3) None));
      [apply reachable_init | reflexivity].
Defined.

(** ** C10: [forceSyncOnIOs] propagates in the same turn, past the gate *)

Lemma guard_true_intro v st :
  typeof v = "object" -> strict_eq v (currentGlobal st) = false ->
  bool_decide (typeof v = "object") && negb (strict_eq v (currentGlobal st)) = true.
Proof. intros Ht He. by rewrite (bool_decide_eq_true_2 _ Ht), He. Qed.


Lemma busy_disarmed_reachable : reachable busy_disarmed.
Proof.
  apply (reachable_step (tickEnd (setUntypedGlobal (VObj 1) None initial_store))
           _ 0 OpHeavyAnimationStart); [| reflexivity].
  apply (reachable_step (setUntypedGlobal (VObj 1) None initial_store)
           _ 0 OpTickEnd); [| reflexivity].
  apply (reachable_step initial_store _ 0 (OpSetGlobal (VObj 1) None));
    [apply reachable_init | reflexivity].
Qed.


(** ** The gate and its one-shot override *)

Lemma tickEnd_waiting st :
  throttleWaiting st = true -> tickEnd st = runCallbacks (set_throttleWaiting false st).
Proof. intros H. unfold tickEnd. by rewrite H. Qed.

Lemma runCallbacks_armed st :
  forceOnHeavyAnimation st = true ->
  runCallbacks st = forEach_callback (set_forceOnHeavyAnimation false st).
Proof. intros H. unfold runCallbacks. by rewrite H. Qed.

Lemma runCallbacks_deferred st :
  forceOnHeavyAnimation st = false -> isHeavyAnimating st = true ->
  runCallbacks st = getIsHeavyAnimating_once st.
Proof. intros H1 H2. unfold runCallbacks, getIsHeavyAnimating. by rewrite H1, H2. Qed.

Lemma runCallbacks_idle st :
  forceOnHeavyAnimation st = false -> isHeavyAnimating st = false ->
  runCallbacks st = forEach_callback st.
Proof. intros H1 H2. unfold runCallbacks, getIsHeavyAnimating. by rewrite H1, H2. Qed.

(** ** The recompute pass, container by container *)

Lemma count_app f a b : count f (a ++ b) = count f a + count f b.
Proof. unfold count. by rewrite List.filter_app, length_app. Qed.

Lemma activateContainer_fields c global props b c1 :
  activateContainer c global props = (b, c1) ->
  mapStateToProps c1 = mapStateToProps c
  /\ activationFn c1 = activationFn c
  /\ ownProps c1 = ownProps c
  /\ mappedProps c1 = mappedProps c.
Proof.
  unfold activateContainer. destruct (activationFn c) as [f |] eqn:Hf.
  - destruct (run_aprog _ _ _) as [[v cur] calls]. intros [= <- <-]. by repeat split.
  - intros [= <- <-]. by repeat split.
Qed.

(** The events of one iteration speak of that container only, and an
    iteration that goes on reports no error. *)
Lemma visit_container_events global id c :
  match visit_container global id c with
  | Continue c' evs =>
      count is_error evs = 0
      /\ forall k, k <> id -> count (is_notify k) evs = 0 /\ count (is_mapper k) evs = 0
  | Abort c' evs =>
      mappedProps c' = mappedProps c
      /\ exists err, evs = [EvMapper id; EvError err]
                     /\ mapStateToProps c global (ownProps c) = MThrow err
  end.
Proof.
  unfold visit_container.
  destruct (activateContainer c global (ownProps c)) as [active c1] eqn:Ha.
  apply activateContainer_fields in Ha as (_ & _ & _ & Hm).
  assert (Hne : forall k, k <> id -> bool_decide (id = k) = false)
    by (intros k Hk; apply bool_decide_eq_false; congruence).
  destruct active; simpl.
  - destruct (mapStateToProps c global (ownProps c)) as [new | err].
    + destruct (_ && _); (split; [reflexivity |]); intros k Hk;
        unfold count; simpl; by rewrite (Hne k Hk).
    + split; [exact Hm |]. by exists err.
  - split; [reflexivity |]. intros k Hk. by split.
Qed.

(** A pass says nothing about a key that is not in the registry. *)
Lemma updateContainers_loop_foreign global id cs : forall cs' evs,
  id ∉ map fst cs ->
  updateContainers_loop global cs = (cs', evs) ->
  count (is_notify id) evs = 0 /\ count (is_mapper id) evs = 0.
Proof.
  induction cs as [| [k1 c1] rest IHr]; intros rest' evs' Hk Hrest.
  - by injection Hrest as <- <-.
  - simpl in Hrest. simpl in Hk.
    pose proof (visit_container_events global k1 c1) as Hev1.
    assert (Hne : id <> k1) by (intros ->; apply Hk; by left).
    destruct (visit_container global k1 c1) as [c1' e1 | c1' e1].
    + destruct (updateContainers_loop global rest) as [r' ev'] eqn:Hr.
      injection Hrest as <- <-.
      destruct Hev1 as [_ Hev1]. destruct (Hev1 id Hne) as [Hn Hm].
      destruct (IHr r' ev') as [Hn' Hm']; [| done |].
      { intros Hin. apply Hk. by right. }
      rewrite !count_app. lia.
    + injection Hrest as <- <-.
      destruct Hev1 as (_ & err & -> & _).
      unfold count. simpl. rewrite bool_decide_eq_false_2 by congruence. done.
Qed.


(** ** C5: the shallow-equality gate *)

Lemma arePropsShallowEqual_true_iff (a b : Props) :
  arePropsShallowEqual a b = true <-> forall k, same_at a b k.
Proof.
  unfold arePropsShallowEqual. rewrite andb_true_iff, bool_decide_eq_true, forallb_forall.
  split.
  - intros [Hdom Hall] k. unfold same_at.
    destruct (a !! k) as [x |] eqn:Ha.
    + assert (Hk : k ∈ dom a) by (apply elem_of_dom; eauto).
      apply elem_of_elements, list_elem_of_In, Hall in Hk.
      unfold props_agree_on in Hk. rewrite Ha in Hk. by destruct (b !! k).
    + assert (Hk : k ∉ dom b) by (rewrite <- Hdom; by apply not_elem_of_dom).
      apply not_elem_of_dom in Hk. by rewrite Hk.
  - intros Hsame. split.
    + apply set_eq. intros k. rewrite !elem_of_dom.
      specialize (Hsame k). unfold same_at in Hsame.
      destruct (a !! k), (b !! k); try done; split; intros [? ?]; eauto; done.
    + intros k Hk. apply list_elem_of_In, elem_of_elements, elem_of_dom in Hk as [x Hx].
      specialize (Hsame k). unfold same_at, props_agree_on in *.
      rewrite Hx in *. by destruct (b !! k).
Qed.


Lemma updateContainers_loop_app global pre : forall rest pre' evs_pre,
  updateContainers_loop global pre = (pre', evs_pre) ->
  count is_error evs_pre = 0 ->
  updateContainers_loop global (pre ++ rest)
  = (pre' ++ fst (updateContainers_loop global rest),
     evs_pre ++ snd (updateContainers_loop global rest)).
Proof.
  induction pre as [| [k c] pre IH]; intros rest pre' evs_pre Hloop Herr.
  - injection Hloop as <- <-. simpl. by destruct (updateContainers_loop global rest).
  - simpl in *.
    pose proof (visit_container_events global k c) as Hev.
    destruct (visit_container global k c) as [c' e | c' e].
    + destruct (updateContainers_loop global pre) as [p' ep] eqn:Hp.
      injection Hloop as <- <-.
      rewrite count_app in Herr.
      rewrite (IH rest p' ep eq_refl) by lia.
      simpl. by rewrite <- app_assoc.
    + injection Hloop as <- <-.
      destruct Hev as (_ & err & -> & _). discriminate.
Qed.

Lemma updateContainers_loop_keys global cs :
  map fst (updateContainers_loop global cs).1 = map fst cs.
Proof.
  induction cs as [| [k c] rest IH]; [reflexivity |].
  simpl. destruct (visit_container global k c) as [c' e | c' e]; [| reflexivity].
  destruct (updateContainers_loop global rest) as [rest' evs']. simpl in *.
  by rewrite IH.
Qed.






Lemma store_xyz_reachable : reachable store_xyz.
Proof.
  unfold store_xyz.
  eapply (reachable_step _ _ 0 (OpRender "Z" mapper_of_global None ∅)); [| reflexivity].
  eapply (reachable_step _ _ 0 (OpRender "Y" mapper_unless_replaced None ∅)); [| reflexivity].
  eapply (reachable_step _ _ 0 (OpRender "X" mapper_of_global None ∅)); [| reflexivity].
  apply reachable_init.
Qed.

Lemma store_xyz_keys : NoDup (map fst (containers store_xyz)).
Proof. apply (bool_decide_unpack _). vm_compute. exact I. Qed.




(** ** C4: a throwing mapper aborts the rest of the pass *)

(** C4, as stated, fails: in a pass over [X; Y; Z] at a replaced state,
    [Y]'s mapper throws, but [X], visited before it, has already been
    given its new props and notified. *)
Lemma C4_counterexample_earlier_container_notified :
  reachable store_xyz
  /\ log store_xyz = []
  /\ log (tickEnd (setUntypedGlobal (VObj 1) None store_xyz))
     = [EvPass (VObj 1); EvMapper "X"; EvNotify "X"; EvMapper "Y"; EvError (VStr "boom")]
  /\ mappedProps <$> containers_get "X" (containers store_xyz)
     = Some (Some {[ "value" := VObj 0 ]})
  /\ mappedProps <$> containers_get "X"
                       (containers (tickEnd (setUntypedGlobal (VObj 1) None store_xyz)))
     = Some (Some {[ "value" := VObj 1 ]}).
Proof. split; [apply store_xyz_reachable |]. repeat split. Qed.

(** C4, amended: when the containers before [c] are visited without a
    throw and the mapper of the active container [c] throws, the pass
    stops there: the error is reported exactly once, [c] keeps its previous
    props and is not notified, and the containers after [c] are not
    visited, keep their record and are not notified.  (The containers
    before [c] have been processed as in any pass.) *)
Theorem mapper_throw_aborts_rest_of_pass
  (global : value) (pre post pre' : list (string * Container)) (evs_pre : list event)
  (id : string) (c c1 : Container) (err : value) :
  NoDup (map fst (pre ++ (id, c) :: post)) ->
  updateContainers_loop global pre = (pre', evs_pre) ->
  count is_error evs_pre = 0 ->
  activateContainer c global (ownProps c) = (true, c1) ->
  mapStateToProps c global (ownProps c) = MThrow err ->
  let evs := evs_pre ++ [EvMapper id; EvError err] in
  updateContainers_loop global (pre ++ (id, c) :: post) = (pre' ++ (id, c1) :: post, evs)
  /\ count is_error evs = 1
  /\ mappedProps c1 = mappedProps c
  /\ count (is_notify id) evs = 0
  /\ forall k ck, In (k, ck) post ->
       count (is_notify k) evs = 0 /\ count (is_mapper k) evs = 0.
Proof.
  intros Hnd Hpre Herr Hact Hthrow evs.
  assert (Hhere : updateContainers_loop global ((id, c) :: post)
                  = ((id, c1) :: post, [EvMapper id; EvError err])).
  { simpl. unfold visit_container. rewrite Hact. simpl. by rewrite Hthrow. }
  rewrite map_app in Hnd. simpl in Hnd.
  apply NoDup_app in Hnd as (_ & Hdisj & Hnd).
  apply NoDup_cons in Hnd as [Hid _].
  split; [| split; [| split; [| split]]].
  - rewrite (updateContainers_loop_app global pre _ pre' evs_pre Hpre Herr).
    by rewrite Hhere.
  - unfold evs. rewrite count_app, Herr. reflexivity.
  - by apply activateContainer_fields in Hact as (_ & _ & _ & ?).
  - unfold evs. rewrite count_app.
    destruct (updateContainers_loop_foreign global id pre pre' evs_pre) as [-> _];
      [| exact Hpre | reflexivity].
    intros Hin. apply (Hdisj id Hin). by left.
  - intros k ck Hin. unfold evs. rewrite !count_app.
    assert (Hk : k ∈ map fst post).
    { apply list_elem_of_In. change k with (fst (k, ck)). by apply in_map. }
    assert (Hne : id <> k) by (intros ->; contradiction).
    destruct (updateContainers_loop_foreign global k pre pre' evs_pre) as [-> ->];
      [| exact Hpre |].
    + intros Hin'. apply (Hdisj k Hin'). by right.
    + unfold count. simpl. rewrite bool_decide_eq_false_2 by congruence. done.
Qed.

(** The theorem on [Y] in the registry [X; Y; Z] at a replaced state. *)
Lemma mapper_throw_witness :
  updateContainers_loop (VObj 1) (containers store_xyz)
  = (fst (updateContainers_loop (VObj 1) [("X", container_x)])
       ++ drop 1 (containers store_xyz),
     [EvMapper "X"; EvNotify "X"; EvMapper "Y"; EvError (VStr "boom")])
  /\ count is_error [EvMapper "X"; EvNotify "X"; EvMapper "Y"; EvError (VStr "boom")] = 1
  /\ count (is_notify "Y") [EvMapper "X"; EvNotify "X"; EvMapper "Y"; EvError (VStr "boom")] = 0.
Proof.
  destruct (mapper_throw_aborts_rest_of_pass (VObj 1)
              [("X", container_x)]
              (drop 2 (containers store_xyz))
              (fst (updateContainers_loop (VObj 1) [("X", container_x)]))
              [EvMapper "X"; EvNotify "X"]
              "Y" container_y container_y (VStr "boom"))
    as (Hloop & Hone & _ & Hnot & _).
  - exact store_xyz_keys.
  - reflexivity.
  - reflexivity.
  - reflexivity.
  - reflexivity.
  - split; [exact Hloop |]. split; [exact Hone | exact Hnot].
Defined.

(** ** C6: the stick-to-first latch *)

(** C6: the code at the failing input.  The latch is read once, on entry
    to [activateContainer]; an activation function that, on a container
    with nothing latched, passes "a" and then "b" to [stickToFirst] in one
    evaluation gets true for both, and "b", not the first value "a", is
    what stays in [stuckTo]; the latch as specified answers false to the
    second call and keeps "a". *)
Lemma C6_counterexample_two_calls_in_one_evaluation :
  activation_calls (fresh_container (Some sticks_twice)) (VObj 0) ∅
  = [(VStr "a", VBool true); (VStr "b", VBool true)]
  /\ stuckTo (activateContainer (fresh_container (Some sticks_twice)) (VObj 0) ∅).2
     = VStr "b"
  /\ latch_spec None [VStr "a"; VStr "b"] = ([true; false], Some (VStr "a")).
Proof. repeat split. Qed.

(** ** The latch outside that case *)

Lemma truthy_not_returned_true v : truthy v = false -> returned_true v = false.
Proof. intros H. apply bool_decide_eq_false. intros ->. discriminate. Qed.

Lemma truthy_strict_eq_refl v : truthy v = true -> strict_eq v v = true.
Proof. destruct v; try discriminate; intros _; by apply bool_decide_eq_true. Qed.

(** An evaluation entered with a latched value. *)
Lemma run_aprog_entered_latched stuckTo0 p :
  truthy stuckTo0 = true ->
  let '(_, cur, calls) := run_aprog stuckTo0 p stuckTo0 in
  latch_conforms (latched_of stuckTo0) cur calls.
Proof.
  intros Hs. unfold latch_conforms, latched_of. rewrite Hs.
  induction p as [v | v k IH]; simpl; [by rewrite Hs |].
  unfold stickToFirst. rewrite Hs, andb_false_r. simpl.
  specialize (IH (if truthy v then VBool (strict_eq stuckTo0 v) else v)).
  destruct (run_aprog stuckTo0 _ stuckTo0) as [[w cur] calls]. simpl.
  destruct IH as (I1 & I2 & I3).
  destruct (latch_spec (Some stuckTo0) (map fst calls)) as [answers final]. simpl in *.
  split; [| split; [exact I2 |]].
  - f_equal; [| exact I1].
    destruct (truthy v) eqn:Hv; simpl.
    + unfold returned_true. by destruct (strict_eq stuckTo0 v).
    + by apply truthy_not_returned_true.
  - constructor; [| exact I3]. simpl. intros Hv. rewrite Hv.
    destruct (strict_eq stuckTo0 v); auto.
Qed.

(** An evaluation entered with nothing latched, all of whose non-empty
    candidates are [x]: [cur] is the field as the calls so far left it. *)
Lemma run_aprog_single_claim stuckTo0 x p : forall cur,
  truthy stuckTo0 = false ->
  passes_only x p ->
  cur = stuckTo0 \/ (cur = x /\ truthy x = true) ->
  let '(_, cur', calls) := run_aprog stuckTo0 p cur in
  latch_conforms (latched_of cur) cur' calls.
Proof.
  unfold latch_conforms.
  induction p as [v | v k IH]; intros cur Hs Hp Hcur; simpl; [by repeat split |].
  destruct Hp as [Hv Hk]. unfold stickToFirst. rewrite Hs. simpl.
  rewrite andb_true_r.
  destruct (truthy v) eqn:Htv.
  - specialize (Hv eq_refl). subst v.
    specialize (IH (VBool true) x Hs (Hk _) (or_intror (conj eq_refl Htv))).
    destruct (run_aprog stuckTo0 (k (VBool true)) x) as [[w cur'] calls]. simpl.
    destruct IH as (I1 & I2 & I3).
    assert (Hstep : (match latched_of cur with
                     | None => if truthy x then (true, Some x) else (false, None)
                     | Some l => (truthy x && strict_eq l x, Some l)
                     end) = (true, latched_of x)).
    { unfold latched_of. rewrite Htv.
      destruct Hcur as [-> | [-> _]].
      - by rewrite Hs.
      - rewrite Htv. simpl. by rewrite truthy_strict_eq_refl. }
    rewrite Hstep.
    destruct (latch_spec (latched_of x) (map fst calls)) as [answers final]. simpl in *.
    split; [by f_equal |]. split; [exact I2 |].
    constructor; [simpl; auto | exact I3].
  - specialize (IH v cur Hs (Hk _) Hcur).
    destruct (run_aprog stuckTo0 (k v) cur) as [[w cur'] calls]. simpl.
    destruct IH as (I1 & I2 & I3).
    assert (Hstep : (match latched_of cur with
                     | None => if truthy v then (true, Some v) else (false, None)
                     | Some l => (truthy v && strict_eq l v, Some l)
                     end) = (false, latched_of cur)).
    { rewrite Htv. by destruct (latched_of cur). }
    rewrite Hstep.
    destruct (latch_spec (latched_of cur) (map fst calls)) as [answers final]. simpl in *.
    split; [f_equal; [by apply truthy_not_returned_true | exact I1] |].
    split; [exact I2 |].
    constructor; [simpl; congruence | exact I3].
Qed.

Lemma latch_spec_app latched a b :
  latch_spec latched (a ++ b)
  = ((latch_spec latched a).1 ++ (latch_spec (latch_spec latched a).2 b).1,
     (latch_spec (latch_spec latched a).2 b).2).
Proof.
  revert latched. induction a as [| v a IH]; intros latched; simpl.
  - by destruct (latch_spec latched b).
  - destruct (match latched with Some l => _ | None => _ end) as [answer latched'].
    rewrite IH.
    destruct (latch_spec latched' a) as [answers final]. simpl.
    by destruct (latch_spec final b).
Qed.

Lemma activateContainer_conforms c global props :
  single_claim c global props ->
  latch_conforms (latched_of (stuckTo c)) (stuckTo (activateContainer c global props).2)
    (activation_calls c global props)
  /\ activationFn (activateContainer c global props).2 = activationFn c.
Proof.
  intros Hc. unfold activation_calls, activateContainer, single_claim in *.
  destruct (activationFn c) as [f |] eqn:Hf; [| by repeat split].
  destruct (truthy (stuckTo c)) eqn:Hs.
  - pose proof (run_aprog_entered_latched (stuckTo c) (f global props) Hs) as Hrun.
    destruct (run_aprog (stuckTo c) (f global props) (stuckTo c)) as [[v cur] calls].
    by split.
  - destruct Hc as [Hc | [x Hx]]; [discriminate |].
    pose proof (run_aprog_single_claim (stuckTo c) x (f global props) (stuckTo c)
                  Hs Hx (or_introl eq_refl)) as Hrun.
    destruct (run_aprog (stuckTo c) (f global props) (stuckTo c)) as [[v cur] calls].
    by split.
Qed.

Lemma activate_seq_conforms inputs : forall c,
  single_claims c inputs ->
  latch_conforms (latched_of (stuckTo c)) (stuckTo (activate_seq c inputs).2)
    (activate_seq c inputs).1.
Proof.
  induction inputs as [| [g p] rest IH]; intros c Hall; simpl; [by repeat split |].
  destruct Hall as [Hc Hrest].
  destruct (activateContainer_conforms c g p Hc) as [(H1 & H2 & H3) _].
  destruct (IH (activateContainer c g p).2 Hrest) as (I1 & I2 & I3).
  destruct (activate_seq (activateContainer c g p).2 rest) as [calls' final].
  unfold latch_conforms. simpl in *. rewrite !map_app, latch_spec_app. simpl.
  rewrite <- H2, <- I1, <- I2, <- H1.
  split; [reflexivity |]. split; [reflexivity |]. by apply Forall_app.
Qed.

Lemma run_aprog_latched stuckTo0 p : forall cur,
  truthy stuckTo0 = true -> (run_aprog stuckTo0 p cur).1.2 = cur.
Proof.
  induction p as [v | v k IH]; intros cur Hs; [reflexivity |].
  simpl. unfold stickToFirst. rewrite Hs, andb_false_r.
  specialize (IH (if truthy v then VBool (negb true || strict_eq stuckTo0 v) else v)
                cur Hs).
  destruct (run_aprog stuckTo0 _ cur) as [[w c] calls]. exact IH.
Qed.

Lemma activateContainer_latched c global props :
  truthy (stuckTo c) = true ->
  stuckTo (activateContainer c global props).2 = stuckTo c
  /\ activationFn (activateContainer c global props).2 = activationFn c.
Proof.
  intros Hs. unfold activateContainer.
  destruct (activationFn c) as [f |] eqn:Hf; [| by split].
  pose proof (run_aprog_latched (stuckTo c) (f global props) (stuckTo c) Hs) as Hrun.
  destruct (run_aprog _ _ _) as [[v cur] calls]. simpl in *. by split.
Qed.

Lemma latched_single_claims inputs : forall c,
  truthy (stuckTo c) = true -> single_claims c inputs.
Proof.
  induction inputs as [| [g p] rest IH]; intros c Hs; simpl; [exact I |].
  split; [by left |]. apply IH.
  destruct (activateContainer_latched c g p Hs) as [-> _]. exact Hs.
Qed.

(** X20: the latch behaves as specified in every sequence of evaluations
    none of which, entered with nothing latched, passes two different
    non-empty candidates: the first non-empty value ever passed is latched
    as [stuckTo]; a call returns true exactly when its candidate is
    non-empty and equals the latched value, or nothing is latched yet and
    the candidate is non-empty, which latches it; a non-empty candidate
    gets true or false.  Once a value is latched this holds whatever the
    activation function passes, in one evaluation or in many.  A
    container with no activation function is always active. *)
Theorem latch_follows_the_first_claim (c : Container) (inputs : list (value * Props)) :
  single_claims c inputs ->
  (map returned_true (map snd (activate_seq c inputs).1)
   = (latch_spec (latched_of (stuckTo c)) (map fst (activate_seq c inputs).1)).1
   /\ latched_of (stuckTo (activate_seq c inputs).2)
      = (latch_spec (latched_of (stuckTo c)) (map fst (activate_seq c inputs).1)).2
   /\ Forall (fun call => truthy call.1 = true ->
                          call.2 = VBool true \/ call.2 = VBool false)
        (activate_seq c inputs).1)
  /\ (truthy (stuckTo c) = true -> forall inputs', single_claims c inputs')
  /\ (activationFn c = None ->
      forall global props, activateContainer c global props = (true, c)).
Proof.
  intros Hall. split; [by apply activate_seq_conforms |]. split.
  - intros Hs inputs'. by apply latched_single_claims.
  - intros Hnone global props. unfold activateContainer. by rewrite Hnone.
Qed.

(** The theorem on a fresh container evaluated on "chat-1", "chat-2",
    nothing, "chat-1": the answers are true, false, not true, true, and
    "chat-1" stays latched. *)
Lemma latch_follows_witness :
  map returned_true
    (map snd (activate_seq (fresh_container (Some sticks_to_global))
                [(VStr "chat-1", ∅); (VStr "chat-2", ∅); (VUndefined, ∅); (VStr "chat-1", ∅)]).1)
  = [true; false; false; true]
  /\ latched_of
       (stuckTo (activate_seq (fresh_container (Some sticks_to_global))
                   [(VStr "chat-1", ∅); (VStr "chat-2", ∅); (VUndefined, ∅);
                    (VStr "chat-1", ∅)]).2)
     = Some (VStr "chat-1").
Proof.
  destruct (latch_follows_the_first_claim (fresh_container (Some sticks_to_global))
              [(VStr "chat-1", ∅); (VStr "chat-2", ∅); (VUndefined, ∅); (VStr "chat-1", ∅)])
    as [(Hanswers & Hlatch & _) _].
  - split; [right; by exists (VStr "chat-1") |].
    split; [by left |]. split; [by left |]. split; [by left | exact I].
  - split; [exact Hanswers | exact Hlatch].
Defined.

(** ** The dispatcher's trace *)

Lemma enqueued_app a b : enqueued (a ++ b) = enqueued a ++ enqueued b.
Proof.
  induction a as [| ev a IH]; [reflexivity |].
  destruct ev; simpl; by rewrite ?IH.
Qed.

Lemma handled_app a b : handled (a ++ b) = handled a ++ handled b.
Proof.
  induction a as [| ev a IH]; [reflexivity |].
  destruct ev; simpl; by rewrite ?IH.
Qed.

Lemma drains_app a b : drains (a ++ b) = drains a + drains b.
Proof.
  induction a as [| ev a IH]; [reflexivity |].
  destruct ev; simpl; by rewrite ?IH.
Qed.

Lemma pass_events_quiet evs :
  forallb is_pass_event evs = true ->
  enqueued evs = [] /\ handled evs = [] /\ drains evs = 0.
Proof.
  induction evs as [| ev evs IH]; [done |].
  simpl. intros H. apply andb_prop in H as [Hev Hrest].
  destruct ev; try discriminate; simpl; by apply IH.
Qed.

Lemma forallb_app_true {A} (f : A -> bool) a b :
  forallb f a = true -> forallb f b = true -> forallb f (a ++ b) = true.
Proof. intros Ha Hb. rewrite forallb_app. by rewrite Ha, Hb. Qed.

Lemma updateContainers_loop_pass_events global cs :
  forallb is_pass_event (updateContainers_loop global cs).2 = true.
Proof.
  induction cs as [| [k c] rest IH]; [reflexivity |].
  simpl. unfold visit_container.
  destruct (activateContainer c global (ownProps c)) as [active c1].
  destruct active; simpl.
  - destruct (mapStateToProps c global (ownProps c)) as [new | err]; [| reflexivity].
    destruct (_ && _); destruct (updateContainers_loop global rest); exact IH.
  - destruct (updateContainers_loop global rest); exact IH.
Qed.

Lemma run_callback_pass_events cb st :
  exists evs, log (run_callback cb st) = log st ++ evs
              /\ forallb is_pass_event evs = true.
Proof.
  destruct cb; simpl.
  - unfold updateContainers.
    pose proof (updateContainers_loop_pass_events (currentGlobal st) (containers st)) as H.
    destruct (updateContainers_loop _ _) as [cs evs]. simpl in *. eauto.
  - eauto.
Qed.

Lemma foldl_run_callback_pass_events cbs : forall st,
  exists evs, log (foldl (fun s cb => run_callback cb s) st cbs) = log st ++ evs
              /\ forallb is_pass_event evs = true.
Proof.
  induction cbs as [| cb cbs IH]; intros st; simpl.
  - exists []. by rewrite app_nil_r.
  - destruct (IH (run_callback cb st)) as (evs2 & H2 & P2).
    destruct (run_callback_pass_events cb st) as (evs1 & H1 & P1).
    exists (evs1 ++ evs2). split; [by rewrite H2, H1, app_assoc |].
    by apply forallb_app_true.
Qed.

Lemma runCallbacks_pass_events st :
  exists evs, log (runCallbacks st) = log st ++ evs
              /\ forallb is_pass_event evs = true.
Proof.
  unfold runCallbacks, getIsHeavyAnimating, getIsHeavyAnimating_once, forEach_callback.
  destruct (forceOnHeavyAnimation st).
  - apply (foldl_run_callback_pass_events _ (set_forceOnHeavyAnimation false st)).
  - destruct (isHeavyAnimating st).
    + exists []. simpl. by rewrite app_nil_r.
    + apply foldl_run_callback_pass_events.
Qed.

Lemma setUntypedGlobal_extends v o st :
  exists evs, extends st (setUntypedGlobal v o st) evs []
              /\ forallb is_pass_event evs = true.
Proof.
  unfold extends.
  rewrite setUntypedGlobal_actionQueue, setUntypedGlobal_actionHandlers, app_nil_r.
  unfold setUntypedGlobal. destruct (_ && _).
  - destruct (opt_flag optForceSyncOnIOs o).
    + destruct (runCallbacks_pass_events
                  (set_forceOnHeavyAnimation true (set_currentGlobal v st)))
        as (evs & H & P).
      exists evs. by repeat split.
    + exists []. rewrite app_nil_r.
      by destruct (opt_flag optForceOnHeavyAnimation o).
  - exists []. by rewrite app_nil_r.
Qed.

Lemma pushed_refl st : pushed st st [].
Proof.
  exists [], []. unfold extends. by rewrite !app_nil_r.
Qed.

Lemma pushed_trans a b c r1 r2 :
  pushed a b r1 -> pushed b c r2 -> pushed a c (r1 ++ r2).
Proof.
  intros (e1 & i1 & (L1 & Q1 & H1) & E1 & R1 & D1) (e2 & i2 & (L2 & Q2 & H2) & E2 & R2 & D2).
  exists (e1 ++ e2), (i1 ++ i2). unfold extends.
  rewrite L2, L1, Q2, Q1, H2, H1, enqueued_app, handled_app, drains_app, map_app.
  rewrite E1, E2, R1, R2, D1, D2, !app_assoc. by repeat split.
Qed.

Lemma pushed_setUntypedGlobal v o st : pushed st (setUntypedGlobal v o st) [].
Proof.
  destruct (setUntypedGlobal_extends v o st) as (evs & Hext & Hpass).
  apply pass_events_quiet in Hpass as (He & Hh & Hd).
  exists evs, []. split; [exact Hext |]. by repeat split.
Qed.

Lemma pushed_enqueue_action n p o st : pushed st (enqueue_action n p o st) [].
Proof.
  exists [EvEnqueue n p], [{| qname := n; qpayload := p; qoptions := o |}].
  by repeat split.
Qed.

Lemma pushed_emit_handler n p i g st : pushed st (emit [EvHandler n p i g] st) [(n, p, i)].
Proof.
  exists [EvHandler n p i g], []. unfold extends. simpl. by rewrite app_nil_r.
Qed.

Lemma pushed_queue a b r : pushed a b r -> actionQueue a <> [] -> actionQueue b <> [].
Proof.
  intros (e & i & (_ & Q & _) & _) Ha. rewrite Q. by destruct (actionQueue a).
Qed.

Lemma pushed_actionHandlers a b r : pushed a b r -> actionHandlers b = actionHandlers a.
Proof. by intros (e & i & (_ & _ & H) & _). Qed.

Section Fifo.

Variable dispatch : string -> value -> option ActionOptions -> Store -> outcome unit.
Hypothesis dispatch_only_enqueues : only_enqueues dispatch.

Lemma run_hprog_pushed (p : hprog) : forall st r st',
  actionQueue st <> [] ->
  run_hprog dispatch p st = Done r st' ->
  pushed st st' [].
Proof.
  induction p as [r0 | e | k IH | v o k IH | n pl o k IH]; intros st r st' Hq Hrun;
    simpl in Hrun.
  - injection Hrun as <- <-. apply pushed_refl.
  - discriminate.
  - eapply IH; eauto.
  - pose proof (pushed_setUntypedGlobal v o st) as Hset.
    change [] with (@nil (string * value * nat) ++ []).
    eapply pushed_trans; [exact Hset |].
    eapply IH; [| exact Hrun]. eapply pushed_queue; eauto.
  - destruct (actionHandlers st !! n);
      [| destruct (missing_action_returns n); [by eapply IH | discriminate]].
    destruct (dispatch_only_enqueues n pl o st Hq) as [Hd | Hd]; rewrite Hd in Hrun;
      [discriminate |].
    pose proof (pushed_enqueue_action n pl o st) as Henq.
    change [] with (@nil (string * value * nat) ++ []).
    eapply pushed_trans; [exact Henq |].
    eapply IH; [| exact Hrun]. eapply pushed_queue; eauto.
Qed.

Lemma call_handler_pushed q i h st st' :
  actionQueue st <> [] ->
  call_handler dispatch q i h st = Done tt st' ->
  pushed st st' [(qname q, qpayload q, i)].
Proof.
  intros Hq Hcall. unfold call_handler in Hcall.
  pose proof (pushed_emit_handler (qname q) (qpayload q) i (currentGlobal st) st) as Hemit.
  destruct (run_hprog dispatch _ _) as [r st1 | e st1 |] eqn:Hrun; try discriminate.
  apply run_hprog_pushed in Hrun; [| eapply pushed_queue; eauto].
  pose proof (pushed_trans _ _ _ _ _ Hemit Hrun) as H1. simpl in H1.
  destruct (negb (truthy r) || is_thenable r); injection Hcall as <-; [exact H1 |].
  pose proof (pushed_trans _ _ _ _ _ H1 (pushed_setUntypedGlobal r (qoptions q) st1)) as H2.
  exact H2.
Qed.

Lemma forEach_handler_pushed q hs : forall i st st',
  actionQueue st <> [] ->
  forEach_handler dispatch q i hs st = Done tt st' ->
  pushed st st' (map (fun index => (qname q, qpayload q, index)) (seq i (length hs))).
Proof.
  induction hs as [| h hs IH]; intros i st st' Hq Hrun; simpl in Hrun.
  - injection Hrun as <-. apply pushed_refl.
  - destruct (call_handler dispatch q i h st) as [[] st1 | e st1 |] eqn:Hcall;
      try discriminate.
    apply call_handler_pushed in Hcall; [| exact Hq].
    apply IH in Hrun; [| eapply pushed_queue; eauto].
    exact (pushed_trans _ _ _ _ _ Hcall Hrun).
Qed.

Lemma run_queued_pushed q st st' :
  actionQueue st <> [] ->
  run_queued dispatch q st = Done tt st' ->
  pushed st st' (expected_runs (actionHandlers st) (item_key q)).
Proof.
  intros Hq Hrun. unfold run_queued in Hrun. unfold expected_runs. simpl.
  destruct (actionHandlers st !! qname q) as [hs |]; simpl.
  - by apply forEach_handler_pushed.
  - destruct (inherited (qname q)); [discriminate |].
    injection Hrun as <-. apply pushed_refl.
Qed.

Lemma drain_fifo n : forall st st',
  drain dispatch n st = Done tt st' ->
  exists evs,
    log st' = log st ++ evs
    /\ actionQueue st' = []
    /\ actionHandlers st' = actionHandlers st
    /\ handled evs
       = flat_map (expected_runs (actionHandlers st))
           (map item_key (actionQueue st) ++ enqueued evs)
    /\ drains evs = 0.
Proof.
  induction n as [| n IH]; intros st st' Hdrain; simpl in Hdrain.
  - destruct (actionQueue st) eqn:Hq; [| discriminate]. injection Hdrain as <-.
    exists []. rewrite app_nil_r, Hq. by repeat split.
  - destruct (actionQueue st) as [| q rest] eqn:Hq.
    + injection Hdrain as <-. exists []. rewrite app_nil_r, Hq. by repeat split.
    + destruct (run_queued dispatch q st) as [[] st1 | e st1 |] eqn:Hrun; try discriminate.
      apply run_queued_pushed in Hrun; [| by rewrite Hq].
      destruct Hrun as (e1 & i1 & (L1 & Q1 & H1) & E1 & R1 & D1).
      apply IH in Hdrain as (e2 & L2 & Q2 & H2 & R2 & D2).
      simpl in L2, H2, R2. rewrite Q1, Hq in R2. simpl in R2.
      exists (e1 ++ e2). rewrite L2, L1, Q2, H2, H1, handled_app, enqueued_app, drains_app.
      rewrite R1, R2, E1, D1, D2, H1, map_app, <- !app_assoc. simpl.
      by repeat split.
Qed.

End Fifo.

Lemma handleAction_nested fuel name payload options st :
  actionQueue st <> [] ->
  handleAction (S fuel) name payload options st
  = Done tt (enqueue_action name payload options st).
Proof.
  intros Hq. simpl. destruct (actionQueue st) as [| q rest]; [done |].
  simpl. rewrite length_app. simpl.
  replace (length rest + 1) with (S (length rest)) by lia. reflexivity.
Qed.

Lemma handleAction_only_enqueues fuel : only_enqueues (handleAction fuel).
Proof.
  intros name payload options st Hq. destruct fuel as [| fuel]; [by left |].
  right. by apply handleAction_nested.
Qed.

(** ** More fuel changes no result *)

Section MoreFuel.

Variables dispatch dispatch' :
  string -> value -> option ActionOptions -> Store -> outcome unit.
Hypothesis dispatch_refines : refines dispatch dispatch'.

Lemma run_hprog_more_fuel (p : hprog) : forall st,
  run_hprog dispatch p st <> OutOfFuel ->
  run_hprog dispatch' p st = run_hprog dispatch p st.
Proof.
  induction p as [r | e | k IH | v o k IH | n pl o k IH]; intros st Hne; simpl in *;
    try reflexivity.
  - by apply IH.
  - by apply IH.
  - destruct (actionHandlers st !! n);
      [| destruct (missing_action_returns n); [by apply IH | reflexivity]].
    destruct (dispatch n pl o st) as [[] st1 | e st1 |] eqn:Hd; [| | done].
    + rewrite dispatch_refines, Hd by (rewrite Hd; discriminate). by apply IH.
    + by rewrite dispatch_refines, Hd by (rewrite Hd; discriminate).
Qed.

Lemma call_handler_more_fuel q i h st :
  call_handler dispatch q i h st <> OutOfFuel ->
  call_handler dispatch' q i h st = call_handler dispatch q i h st.
Proof.
  unfold call_handler. intros Hne.
  rewrite run_hprog_more_fuel; [reflexivity |].
  intros Hout. by rewrite Hout in Hne.
Qed.

Lemma forEach_handler_more_fuel q hs : forall i st,
  forEach_handler dispatch q i hs st <> OutOfFuel ->
  forEach_handler dispatch' q i hs st = forEach_handler dispatch q i hs st.
Proof.
  induction hs as [| h hs IH]; intros i st Hne; simpl in *; [reflexivity |].
  rewrite call_handler_more_fuel.
  - destruct (call_handler dispatch q i h st) as [[] st1 | e st1 |]; try reflexivity.
    by apply IH.
  - intros Hout. by rewrite Hout in Hne.
Qed.

Lemma run_queued_more_fuel q st :
  run_queued dispatch q st <> OutOfFuel ->
  run_queued dispatch' q st = run_queued dispatch q st.
Proof.
  unfold run_queued. destruct (actionHandlers st !! qname q); [| reflexivity].
  apply forEach_handler_more_fuel.
Qed.

Lemma drain_more_fuel n : forall m st,
  n <= m ->
  drain dispatch n st <> OutOfFuel ->
  drain dispatch' m st = drain dispatch n st.
Proof.
  induction n as [| n IH]; intros m st Hle Hne.
  - simpl in *. destruct (actionQueue st) eqn:Hq; [| done].
    destruct m; simpl; by rewrite Hq.
  - destruct m as [| m]; [lia |]. simpl in *.
    destruct (actionQueue st) as [| q rest]; [reflexivity |].
    rewrite run_queued_more_fuel.
    + destruct (run_queued dispatch q st) as [[] st1 | e st1 |]; try reflexivity.
      apply IH; [lia | exact Hne].
    + intros Hout. by rewrite Hout in Hne.
Qed.

End MoreFuel.

(** A dispatch that terminates within some fuel gives the same outcome
    with any larger fuel. *)
Lemma handleAction_more_fuel fuel : forall fuel',
  fuel <= fuel' -> refines (handleAction fuel) (handleAction fuel').
Proof.
  induction fuel as [| fuel IH]; intros fuel' Hle name payload options st Hne; [done |].
  destruct fuel' as [| fuel']; [lia |]. simpl in *.
  destruct (Nat.eqb _ 1); [| reflexivity].
  rewrite (drain_more_fuel (handleAction fuel) (handleAction fuel') (IH fuel' ltac:(lia))
             fuel fuel'); [reflexivity | lia |].
  intros Hout. by rewrite Hout in Hne.
Qed.

(** ** A dispatch whose handlers dispatch nothing terminates *)

Lemma run_hprog_no_dispatch dispatch (p : hprog) : forall st,
  no_dispatch p ->
  match run_hprog dispatch p st with
  | Done _ st' | Threw _ st' =>
      actionQueue st' = actionQueue st /\ actionHandlers st' = actionHandlers st
  | OutOfFuel => False
  end.
Proof.
  induction p as [r | e | k IH | v o k IH | n pl o k IH]; intros st Hp; simpl in *;
    try done.
  - by apply IH.
  - specialize (IH (setUntypedGlobal v o st) Hp).
    rewrite setUntypedGlobal_actionQueue, setUntypedGlobal_actionHandlers in IH.
    exact IH.
Qed.

Lemma forEach_handler_no_dispatch dispatch q hs : forall i st,
  Forall (fun h : ActionHandler => forall g p, no_dispatch (h g p)) hs ->
  match forEach_handler dispatch q i hs st with
  | Done _ st' | Threw _ st' =>
      actionQueue st' = actionQueue st /\ actionHandlers st' = actionHandlers st
  | OutOfFuel => False
  end.
Proof.
  induction hs as [| h hs IH]; intros i st Hhs; simpl; [done |].
  apply Forall_cons in Hhs as [Hh Hhs].
  unfold call_handler.
  pose proof (run_hprog_no_dispatch dispatch
                (h (if DEBUG then getUntypedGlobal st else currentGlobal st) (qpayload q))
                (emit [EvHandler (qname q) (qpayload q) i
                         (if DEBUG then getUntypedGlobal st else currentGlobal st)] st)
                (Hh _ _)) as Hrun.
  destruct (run_hprog dispatch _ _) as [r st1 | e st1 |]; [| exact Hrun | done].
  simpl in Hrun. destruct Hrun as [Hq Hh1].
  destruct (negb (truthy r) || is_thenable r).
  - specialize (IH (S i) st1 Hhs).
    destruct (forEach_handler dispatch q (S i) hs st1); try done;
      destruct IH as [-> ->]; done.
  - specialize (IH (S i) (setUntypedGlobal r (qoptions q) st1) Hhs).
    rewrite setUntypedGlobal_actionQueue, setUntypedGlobal_actionHandlers in IH.
    destruct (forEach_handler dispatch q (S i) hs _); try done;
      destruct IH as [-> ->]; done.
Qed.

(** With handlers that dispatch nothing, a dispatch on an empty queue
    returns or throws within fuel 2. *)
Lemma handleAction_terminates name payload options st :
  actionQueue st = [] ->
  (forall hs, actionHandlers st !! name = Some hs ->
     Forall (fun h : ActionHandler => forall g p, no_dispatch (h g p)) hs) ->
  handleAction 2 name payload options st <> OutOfFuel.
Proof.
  intros Hq Hhs. simpl. rewrite Hq. simpl. unfold run_queued. simpl.
  destruct (actionHandlers st !! name) as [hs |] eqn:Hlook.
  - match goal with |- context [forEach_handler ?d ?q ?i hs ?s] =>
      pose proof (forEach_handler_no_dispatch d q hs i s (Hhs hs eq_refl)) as Hrun;
      destruct (forEach_handler d q i hs s) as [[] st1 | e st1 |]
    end; [| done | done].
    destruct Hrun as [Hq1 _]. simpl in Hq1. rewrite Hq in Hq1. simpl in Hq1.
    rewrite Hq1. simpl. done.
  - destruct (inherited name); [done |]. simpl. rewrite Hq. simpl. done.
Qed.

(** ** C2: a re-entrant dispatch waits its turn in the queue *)

(** C2: a dispatch made while the queue is not empty (from inside a
    handler) only appends to the queue.  A dispatch made on an empty queue
    that completes has started exactly one drain, leaves the queue empty,
    and the handler calls it made are, dispatch after dispatch in the
    order of enqueueing, those of every handler registered under the
    dispatched name, once each in registration order: the handlers of an
    action dispatched from a handler run after all the handlers of the
    dispatching action. *)
Theorem reentrant_dispatch_is_queued_fifo
  (fuel : nat) (name : string) (payload : value) (options : option ActionOptions)
  (st st' : Store) :
  actionQueue st = [] ->
  handleAction fuel name payload options st = Done tt st' ->
  (forall f n p o s, actionQueue s <> [] ->
     handleAction (S f) n p o s = Done tt (enqueue_action n p o s))
  /\ exists evs,
       log st' = log st ++ evs
       /\ actionQueue st' = []
       /\ (exists later, enqueued evs = (name, payload) :: later)
       /\ handled evs = flat_map (expected_runs (actionHandlers st)) (enqueued evs)
       /\ drains evs = 1.
Proof.
  intros Hq Hrun. split.
  - intros f n p o s Hs. by apply handleAction_nested.
  - destruct fuel as [| fuel]; [discriminate |].
    simpl in Hrun. rewrite Hq in Hrun. simpl in Hrun.
    destruct (drain _ _ _) as [[] st2 | e st2 |] eqn:Hdrain; try discriminate.
    injection Hrun as <-.
    apply (drain_fifo _ (handleAction_only_enqueues fuel)) in Hdrain
      as (evs & L & Q & H & R & D).
    simpl in L, H, R. rewrite Hq in R. simpl in R.
    exists ([EvEnqueue name payload; EvDrainBegin] ++ evs). simpl.
    rewrite L, <- !app_assoc. simpl.
    split; [reflexivity |]. split; [reflexivity |]. split; [eauto |].
    split; [exact R | by rewrite D].
Qed.

Lemma reentrant_dispatch_witness :
  handleAction 5 "A" VUndefined None store_ab = Done tt after_ab
  /\ handled (log after_ab)
     = [("A", VUndefined, 0); ("A", VUndefined, 1); ("B", VUndefined, 0)]
  /\ actionQueue after_ab = [].
Proof.
  assert (Hrun : handleAction 5 "A" VUndefined None store_ab = Done tt after_ab)
    by (vm_compute; reflexivity).
  split; [exact Hrun |].
  destruct (reentrant_dispatch_is_queued_fifo 5 "A" VUndefined None store_ab after_ab
              eq_refl Hrun) as (_ & evs & Hlog & Hqueue & _ & Hruns & _).
  change (log after_ab = evs) in Hlog.
  split; [| exact Hqueue].
  rewrite Hlog, Hruns, <- Hlog. vm_compute. reflexivity.
Defined.

(** ** C3: the queue is reset when a handler throws *)

(** C3: a dispatch made on an empty queue that terminates, by returning
    or because a handler threw, leaves the queue empty and the handler
    table as it was; a subsequent dispatch therefore starts from an empty
    queue, exactly as on a store whose queue was never touched. *)
Theorem handler_failure_resets_queue
  (fuel : nat) (name : string) (payload : value) (options : option ActionOptions)
  (st st' : Store) :
  actionQueue st = [] ->
  final_store (handleAction fuel name payload options st) = Some st' ->
  actionQueue st' = actionQueue st
  /\ actionHandlers st' = actionHandlers st
  /\ forall fuel2 name2 payload2 options2,
       handleAction fuel2 name2 payload2 options2 st'
       = handleAction fuel2 name2 payload2 options2 (set_actionQueue [] st').
Proof.
  intros Hq Hfinal.
  assert (Hq' : actionQueue st' = []) by (eapply handleAction_queue_reset; eauto).
  split; [congruence |]. split.
  - pose proof (handleAction_respects (fun a b => actionHandlers b = actionHandlers a)) as H.
    specialize (H (fun _ => eq_refl)).
    specialize (H (fun a b c Hab Hbc => eq_trans Hbc Hab)).
    specialize (H setUntypedGlobal_actionHandlers (fun _ _ => eq_refl) (fun _ _ => eq_refl)).
    specialize (H fuel name payload options st).
    destruct (handleAction fuel name payload options st); simpl in Hfinal;
      [injection Hfinal as <- | injection Hfinal as <- | discriminate]; exact H.
  - intros fuel2 name2 payload2 options2.
    destruct fuel2 as [| fuel2]; [reflexivity |].
    simpl. unfold enqueue_action. simpl. rewrite Hq'. reflexivity.
Qed.

Lemma handler_failure_witness :
  handleAction 5 "A" VUndefined None store_fail = Threw (VStr "boom") after_fail
  /\ enqueued (log after_fail) = [("A", VUndefined); ("B", VUndefined)]
  /\ actionQueue after_fail = []
  /\ handleAction 5 "B" VUndefined None after_fail
     = handleAction 5 "B" VUndefined None (set_actionQueue [] after_fail).
Proof.
  assert (Hrun : handleAction 5 "A" VUndefined None store_fail
                 = Threw (VStr "boom") after_fail)
    by (vm_compute; reflexivity).
  split; [exact Hrun |]. split; [vm_compute; reflexivity |].
  destruct (handler_failure_resets_queue 5 "A" VUndefined None store_fail after_fail
              eq_refl) as (Hqueue & _ & Hnext).
  - by rewrite Hrun.
  - split; [exact Hqueue | apply Hnext].
Defined.

(** ** C8: handlers in registration order, each result applied in turn *)












(** * Further properties of the module *)

(** ** Registering handlers: [addUntypedActionHandler] *)

Lemma addUntypedActionHandler_returns n h st :
  inherited n = false \/ is_Some (actionHandlers st !! n) ->
  addUntypedActionHandler n h st
  = Done tt (set_actionHandlers
               (<[n := default [] (actionHandlers st !! n) ++ [h]]> (actionHandlers st)) st).
Proof.
  intros Hn. unfold addUntypedActionHandler.
  destruct (actionHandlers st !! n) as [hs |]; [reflexivity |].
  destruct Hn as [-> | [hs Hhs]]; [reflexivity | discriminate].
Qed.

Lemma register_all_returns regs : forall st,
  Forall (fun r => inherited r.1 = false) regs ->
  exists table,
    register_all regs st = Done tt (set_actionHandlers table st)
    /\ forall name,
         table !! name
         = match handlers_named name regs with
           | [] => actionHandlers st !! name
           | new => Some (default [] (actionHandlers st !! name) ++ new)
           end.
Proof.
  induction regs as [| [n h] regs IH]; intros st Hall.
  - exists (actionHandlers st). split; [by destruct st | reflexivity].
  - apply Forall_cons in Hall as [Hn Hall]. simpl in Hn |- *.
    rewrite addUntypedActionHandler_returns by (by left).
    destruct (IH (set_actionHandlers
                    (<[n := default [] (actionHandlers st !! n) ++ [h]]> (actionHandlers st))
                    st) Hall) as (table & -> & Htable).
    exists table. split; [reflexivity |].
    intros name. rewrite Htable. simpl. unfold handlers_named.
    rewrite filter_cons. simpl.
    destruct (decide (n = name)) as [-> | Hne]; simpl.
    + rewrite lookup_insert_eq. simpl.
      destruct (map snd (filter _ regs)) as [| h' new]; simpl; [reflexivity |].
      by rewrite <- app_assoc.
    + by rewrite lookup_insert_ne.
Qed.

Lemma tickEnd_actionHandlers st : actionHandlers (tickEnd st) = actionHandlers st.
Proof.
  unfold tickEnd. destruct (throttleWaiting st); [| reflexivity].
  by rewrite runCallbacks_actionHandlers.
Qed.

(** No list is ever created under an inherited name. *)
Lemma reachable_no_inherited_entry st :
  reachable st -> forall name, inherited name = true -> actionHandlers st !! name = None.
Proof.
  induction 1 as [| st st' fuel o Hr IH Hf]; intros n Hn; [reflexivity |].
  destruct o; simpl in Hf; try (injection Hf as <-); simpl; auto.
  - rewrite setUntypedGlobal_actionHandlers. auto.
  - pose proof (callAction_respects (fun a b => actionHandlers b = actionHandlers a)) as H.
    specialize (H (fun _ => eq_refl) (fun a b c Hab Hbc => eq_trans Hbc Hab)).
    specialize (H setUntypedGlobal_actionHandlers (fun _ _ => eq_refl) (fun _ _ => eq_refl)).
    specialize (H fuel name payload options st).
    destruct (callAction fuel name payload options st); simpl in Hf;
      [injection Hf as <- | injection Hf as <- | discriminate]; rewrite H; auto.
  - unfold addUntypedActionHandler in Hf.
    destruct (actionHandlers st !! name) as [hs |] eqn:Hlook.
    + injection Hf as <-. simpl.
      destruct (decide (name = n)) as [-> | Hne]; [| rewrite lookup_insert_ne; auto].
      rewrite (IH n Hn) in Hlook. discriminate.
    + destruct (inherited name) eqn:Hname; simpl in Hf; injection Hf as <-; [auto |].
      simpl. destruct (decide (name = n)) as [-> | Hne]; [congruence |].
      rewrite lookup_insert_ne; auto.
  - unfold renderContainer. destruct (render_container _ _ _ _). simpl. auto.
  - rewrite tickEnd_actionHandlers. auto.
  - unfold heavyAnimationEnd. rewrite iter_runCallbacksThrottled.
    destruct (Nat.eqb (onceIdle st) 0); simpl; auto.
Qed.

(** X1: registrations under names that [Object.prototype] does not
    define all return; afterwards the handlers listed under a name are
    those it had before followed by the ones registered under that name,
    in registration order, a name nothing was registered under keeps its
    entry, absent or not, and nothing but the handler table has changed.
    A registration under an inherited name that has no list throws a
    TypeError and registers nothing, and the registrations that would
    follow it in the sequence are not made; no module reached by public
    calls has a list under an inherited name, so there such a
    registration always throws. *)
Theorem registrations_keep_order
  (regs : list (string * ActionHandler)) (st : Store) :
  Forall (fun r => inherited r.1 = false) regs ->
  exists table,
    register_all regs st = Done tt (set_actionHandlers table st)
    /\ (forall name,
          table !! name
          = match handlers_named name regs with
            | [] => actionHandlers st !! name
            | new => Some (default [] (actionHandlers st !! name) ++ new)
            end)
    /\ (forall name handler,
          inherited name = true -> actionHandlers st !! name = None ->
          addUntypedActionHandler name handler st = Threw TypeError st
          /\ forall more,
               register_all (regs ++ (name, handler) :: more) st
               = Threw TypeError (set_actionHandlers table st))
    /\ (reachable st ->
        forall name handler,
          inherited name = true ->
          addUntypedActionHandler name handler st = Threw TypeError st).
Proof.
  intros Hall.
  destruct (register_all_returns regs st Hall) as (table & Hrun & Htable).
  exists table. split; [exact Hrun |]. split; [exact Htable |].
  split; [| intros Hr name handler Hname; unfold addUntypedActionHandler;
            by rewrite (reachable_no_inherited_entry st Hr name Hname), Hname].
  intros name handler Hname Hnone. split.
  - unfold addUntypedActionHandler. by rewrite Hnone, Hname.
  - intros more.
    assert (Hfresh : table !! name = None).
    { rewrite Htable. unfold handlers_named.
      replace (filter (fun r : string * ActionHandler => r.1 = name) regs) with
        (@nil (string * ActionHandler)); [exact Hnone |].
      symmetry. clear -Hall Hname.
      induction regs as [| [n h] regs IH]; [reflexivity |].
      apply Forall_cons in Hall as [Hn Hall]. simpl in Hn.
      rewrite filter_cons. simpl.
      destruct (decide (n = name)) as [-> | Hne]; [congruence | by apply IH]. }
    clear Htable Hall. revert st table Hrun Hnone Hfresh.
    induction regs as [| [n h] regs IH]; intros st table Hrun Hnone Hfresh; simpl in *.
    + injection Hrun as Hst. rewrite <- Hst.
      unfold addUntypedActionHandler.
      assert (Hl : actionHandlers st !! name = None) by exact Hnone.
      by rewrite Hl, Hname.
    + destruct (addUntypedActionHandler n h st) as [[] st1 | e st1 |] eqn:Hadd;
        try discriminate.
      assert (Hst1 : exists t1, st1 = set_actionHandlers t1 st
                                /\ (t1 !! name = None \/ n = name)).
      { unfold addUntypedActionHandler in Hadd.
        destruct (actionHandlers st !! n) as [hs |] eqn:Hn.
        - injection Hadd as <-. eexists. split; [reflexivity |].
          destruct (decide (n = name)) as [-> | Hne]; [by right | left].
          by rewrite lookup_insert_ne.
        - destruct (inherited n); [discriminate |].
          injection Hadd as <-. eexists. split; [reflexivity |].
          destruct (decide (n = name)) as [-> | Hne]; [by right | left].
          by rewrite lookup_insert_ne. }
      destruct Hst1 as (t1 & -> & Hfree).
      destruct (register_all regs (set_actionHandlers t1 st)) as [[] st2 | e st2 |] eqn:Hrest;
        try discriminate.
      injection Hrun as ->.
      destruct Hfree as [Hfree | ->].
      * specialize (IH (set_actionHandlers t1 st) table Hrest Hfree Hfresh).
        exact IH.
      * unfold addUntypedActionHandler in Hadd. rewrite Hnone, Hname in Hadd.
        discriminate.
Qed.

(** Two handlers under [A] and one under [B] on a fresh module; a
    registration under [toString] comes to nothing. *)
Lemma registrations_witness :
  actionHandlers store_ab !! "A" = Some [handler_a1; handler_a2]
  /\ addUntypedActionHandler "toString" handler_b initial_store
     = Threw TypeError initial_store.
Proof.
  destruct (registrations_keep_order
              [("A", handler_a1); ("A", handler_a2); ("B", handler_b)] initial_store)
    as (table & Hrun & Htable & Hthrow & _).
  - repeat constructor.
  - split.
    + unfold store_ab, registered. rewrite Hrun. simpl.
      rewrite (Htable "A"). reflexivity.
    + apply (Hthrow "toString" handler_b); reflexivity.
Defined.

(** ** Side-effect callbacks: [addCallback], [removeCallback] *)

Lemma remove_first_absent cb l : cb ∉ l -> remove_first cb l = l.
Proof.
  induction l as [| x l IH]; intros Hnin; [reflexivity |].
  simpl. apply not_elem_of_cons in Hnin as [Hne Hnin].
  rewrite decide_False by congruence. by rewrite IH.
Qed.

Lemma remove_first_snoc cb l : cb ∉ l -> remove_first cb (l ++ [cb]) = l.
Proof.
  induction l as [| x l IH]; intros Hnin; simpl.
  - by rewrite decide_True.
  - apply not_elem_of_cons in Hnin as [Hne Hnin].
    rewrite decide_False by congruence. by rewrite IH.
Qed.

Lemma remove_first_present cb l : cb ∈ l -> l ≡ₚ cb :: remove_first cb l.
Proof.
  induction l as [| x l IH]; intros Hin; [by apply elem_of_nil in Hin |].
  simpl. destruct (decide (x = cb)) as [-> | Hne]; [reflexivity |].
  apply elem_of_cons in Hin as [-> | Hin]; [done |].
  rewrite (IH Hin) at 1. apply Permutation_swap.
Qed.

Lemma remove_first_sublist cb l : remove_first cb l `sublist_of` l.
Proof.
  induction l as [| x l IH]; simpl; [constructor |].
  destruct (decide (x = cb)); [by apply sublist_cons | by apply sublist_skip].
Qed.

Lemma set_callbacks_same st : set_callbacks (callbacks st) st = st.
Proof. by destruct st. Qed.

Lemma remove_first_split cb pre post :
  cb ∉ pre -> remove_first cb (pre ++ cb :: post) = pre ++ post.
Proof.
  induction pre as [| x pre IH]; intros Hnin; simpl.
  - by rewrite decide_True.
  - apply not_elem_of_cons in Hnin as [Hne Hnin].
    rewrite decide_False by congruence. by rewrite IH.
Qed.

(** X2: [removeCallback] takes out the first occurrence of the callback
    and nothing else: the callbacks before it and after it, later
    occurrences of the same callback included, stay in their order, and
    the rest of the module is untouched.  Removing a callback that is not
    registered leaves the store as it is, and adding a callback that was
    not registered and removing it again gives the store back. *)
Theorem removeCallback_removes_one_occurrence (cb : Callback) (st : Store) :
  (forall pre post,
     callbacks st = pre ++ cb :: post -> cb ∉ pre ->
     removeCallback cb st = set_callbacks (pre ++ post) st)
  /\ (cb ∉ callbacks st -> removeCallback cb st = st)
  /\ (cb ∉ callbacks st -> removeCallback cb (addCallback cb st) = st)
  /\ (cb ∈ callbacks st -> callbacks st ≡ₚ cb :: callbacks (removeCallback cb st))
  /\ callbacks (removeCallback cb st) `sublist_of` callbacks st.
Proof.
  unfold removeCallback, addCallback. simpl.
  split; [| split; [| split; [| split]]].
  - intros pre post Hc Hnin. by rewrite Hc, remove_first_split.
  - intros Hnin. rewrite remove_first_absent by done. apply set_callbacks_same.
  - intros Hnin. rewrite remove_first_snoc by done. by destruct st.
  - apply remove_first_present.
  - apply remove_first_sublist.
Qed.

(** A callback listed twice loses its first occurrence; the second one
    stays behind the callback added in between. *)
Lemma removeCallback_witness :
  callbacks store_callback_twice
  = [CbUpdateContainers; CbExternal 7; CbExternal 8; CbExternal 7]
  /\ removeCallback (CbExternal 7) store_callback_twice
     = set_callbacks [CbUpdateContainers; CbExternal 8; CbExternal 7] store_callback_twice.
Proof.
  split; [reflexivity |].
  apply (proj1 (removeCallback_removes_one_occurrence (CbExternal 7) store_callback_twice)
           [CbUpdateContainers] [CbExternal 8; CbExternal 7] eq_refl).
  intros Hin. apply list_elem_of_singleton in Hin. discriminate.
Defined.

(** X3: calls of [addCallback] and [removeCallback] from outside never
    move or remove the pass over the containers, with which the list
    starts: they act on the callbacks listed after it, an add by
    appending, also when the callback is listed already, a remove by
    taking out the first occurrence; the pass stays first and is listed
    once, and nothing else in the module changes. *)
Theorem callbacks_keep_the_pass_first
  (st : Store) (listed : list Callback) (calls : list callback_call) :
  callbacks st = CbUpdateContainers :: listed ->
  CbUpdateContainers ∉ listed ->
  foldl apply_callback_call st calls
  = set_callbacks (CbUpdateContainers :: foldl after_the_pass listed calls) st
  /\ CbUpdateContainers ∉ foldl after_the_pass listed calls.
Proof.
  revert st listed. induction calls as [| call calls IH]; intros st listed Hc Hnin.
  - simpl. split; [| exact Hnin]. rewrite <- Hc. symmetry. apply set_callbacks_same.
  - assert (Hstep : apply_callback_call st call
                    = set_callbacks (CbUpdateContainers :: after_the_pass listed call) st).
    { destruct call as [id | id]; simpl;
        unfold addCallback, removeCallback; rewrite Hc; simpl; reflexivity. }
    assert (Hnin' : CbUpdateContainers ∉ after_the_pass listed call).
    { destruct call as [id | id]; simpl.
      - intros Hin. apply elem_of_app in Hin as [Hin | Hin]; [contradiction |].
        apply list_elem_of_singleton in Hin. discriminate.
      - intros Hin. apply Hnin.
        eapply elem_of_sublist; [exact Hin | apply remove_first_sublist]. }
    simpl. rewrite Hstep.
    destruct (IH (set_callbacks (CbUpdateContainers :: after_the_pass listed call) st)
                (after_the_pass listed call) eq_refl Hnin') as [-> Hlast].
    split; [reflexivity | exact Hlast].
Qed.

(** On a fresh module: add 7, add 8, add 7 again, remove 7. *)
Lemma callbacks_keep_witness :
  callbacks (foldl apply_callback_call initial_store
               [AddCallback 7; AddCallback 8; AddCallback 7; RemoveCallback 7])
  = [CbUpdateContainers; CbExternal 8; CbExternal 7].
Proof.
  destruct (callbacks_keep_the_pass_first initial_store []
              [AddCallback 7; AddCallback 8; AddCallback 7; RemoveCallback 7] eq_refl)
    as [-> _]; [apply not_elem_of_nil | reflexivity].
Defined.

(** ** One run of the callbacks: [runCallbacks] *)

Lemma remove_first_external id ids :
  exists ids', remove_first (CbExternal id) (map CbExternal ids) = map CbExternal ids'.
Proof.
  induction ids as [| i ids [ids' IH]]; simpl; [by exists [] |].
  destruct (decide (CbExternal i = CbExternal id)); [by exists ids |].
  exists (i :: ids'). simpl. by rewrite IH.
Qed.

(** The callback list is [updateContainers] followed by added callbacks. *)
Lemma reachable_callbacks_shape st :
  reachable st -> exists ids, callbacks st = CbUpdateContainers :: map CbExternal ids.
Proof.
  induction 1 as [| st st' fuel o Hr IH Hf].
  - by exists [].
  - revert IH. pattern st, st'.
    eapply run_op_respects; [.. | exact Hf]; clear; simpl; eauto.
    + intros v o st [l Hl]. rewrite setUntypedGlobal_callbacks. eauto.
    + intros id st [l Hl]. rewrite Hl. exists (l ++ [id]). simpl. by rewrite map_app.
    + intros id st [l Hl]. rewrite Hl. simpl.
      destruct (remove_first_external id l) as [l' ->]. eauto.
    + intros st [l Hl]. rewrite tickEnd_callbacks. eauto.
Qed.

Lemma foldl_external_callbacks ids : forall st,
  log (foldl (fun s cb => run_callback cb s) st (map CbExternal ids))
  = log st ++ map (fun id => EvCallback id (currentGlobal st)) ids.
Proof.
  induction ids as [| id ids IH]; intros st; simpl.
  - by rewrite app_nil_r.
  - rewrite IH. simpl. by rewrite <- app_assoc.
Qed.

Lemma forEach_callback_log st ids :
  callbacks st = CbUpdateContainers :: map CbExternal ids ->
  log (forEach_callback st) = log st ++ callbacks_log st ids.
Proof.
  intros Hc. unfold forEach_callback, callbacks_log. rewrite Hc. simpl.
  rewrite foldl_external_callbacks.
  pose proof (updateContainers_outside st) as Ho. split_outside Ho.
  replace (currentGlobal (updateContainers st)) with (currentGlobal st) by done.
  unfold updateContainers.
  destruct (updateContainers_loop (currentGlobal st) (containers st)) as [cs evs].
  simpl. by rewrite <- app_assoc.
Qed.

(** ** Coalescing: [runCallbacksThrottled] and the end of the tick *)

Lemma count_positive f ev evs : In ev evs -> f ev = true -> 0 < count f evs.
Proof.
  intros Hin Hf. unfold count.
  assert (Hfin : In ev (List.filter f evs)) by (apply List.filter_In; by split).
  destruct (List.filter f evs); [destruct Hfin | simpl; lia].
Qed.

Lemma updateContainers_loop_no_pass global cs :
  count is_pass (updateContainers_loop global cs).2 = 0.
Proof.
  induction cs as [| [k c] rest IH]; [reflexivity |].
  simpl. unfold visit_container.
  destruct (activateContainer c global (ownProps c)) as [active c1].
  destruct active; simpl.
  - destruct (mapStateToProps c global (ownProps c)) as [new | err]; [| reflexivity].
    destruct (_ && _); destruct (updateContainers_loop global rest); exact IH.
  - destruct (updateContainers_loop global rest); exact IH.
Qed.

Lemma callbacks_log_one_pass st ids :
  count is_pass (callbacks_log st ids) = 1
  /\ forall g, In (EvPass g) (callbacks_log st ids) -> g = currentGlobal st.
Proof.
  assert (Hrest : count is_pass
                    ((updateContainers_loop (currentGlobal st) (containers st)).2
                     ++ map (fun id => EvCallback id (currentGlobal st)) ids) = 0).
  { rewrite count_app, updateContainers_loop_no_pass.
    clear. induction ids as [| id ids IH]; [reflexivity | exact IH]. }
  unfold callbacks_log. split.
  - change (S (count is_pass
                 ((updateContainers_loop (currentGlobal st) (containers st)).2
                  ++ map (fun id => EvCallback id (currentGlobal st)) ids)) = 1).
    by rewrite Hrest.
  - intros g [[= <-] | Hin]; [reflexivity |].
    pose proof (count_positive is_pass _ _ Hin eq_refl). lia.
Qed.

(** What the end of a tick logs: one run of the callbacks when a pass is
    waiting and either the override is armed or the gate is idle, and
    nothing otherwise. *)
Lemma tickEnd_log st ids :
  callbacks st = CbUpdateContainers :: map CbExternal ids ->
  log (tickEnd st)
  = log st ++ (if throttleWaiting st
                  && (forceOnHeavyAnimation st || negb (isHeavyAnimating st))
               then callbacks_log st ids else []).
Proof.
  intros Hc. unfold tickEnd.
  destruct (throttleWaiting st) eqn:Hw; simpl; [| by rewrite app_nil_r].
  unfold runCallbacks, getIsHeavyAnimating. simpl.
  destruct (forceOnHeavyAnimation st) eqn:Hf; simpl.
  - exact (forEach_callback_log
             (set_forceOnHeavyAnimation false (set_throttleWaiting false st)) ids Hc).
  - destruct (isHeavyAnimating st) eqn:Hh; simpl.
    + by rewrite app_nil_r.
    + exact (forEach_callback_log (set_throttleWaiting false st) ids Hc).
Qed.

Lemma setUntypedGlobal_async v o st :
  opt_flag optForceSyncOnIOs o = false ->
  log (setUntypedGlobal v o st) = log st
  /\ containers (setUntypedGlobal v o st) = containers st.
Proof.
  intros Hsync. unfold setUntypedGlobal. rewrite Hsync.
  destruct (_ && _); [| done].
  by destruct (opt_flag optForceOnHeavyAnimation o).
Qed.

Lemma replace_all_async calls : forall st,
  Forall (fun call => opt_flag optForceSyncOnIOs call.2 = false) calls ->
  log (replace_all calls st) = log st
  /\ containers (replace_all calls st) = containers st
  /\ callbacks (replace_all calls st) = callbacks st.
Proof.
  induction calls as [| [v o] calls IH]; intros st Hall; [done |].
  apply Forall_cons in Hall as [Hsync Hall]. simpl in Hsync.
  unfold replace_all in *. simpl.
  destruct (IH (setUntypedGlobal v o st) Hall) as (-> & -> & ->).
  destruct (setUntypedGlobal_async v o st Hsync) as (-> & ->).
  by rewrite setUntypedGlobal_callbacks.
Qed.

(** X4: replaces made without [forceSyncOnIOs] run no pass themselves,
    however many are made in a tick; at the end of the tick at most one
    pass runs, it reads the state left by the last replace, and it does
    run when one is waiting and the override is armed or the gate idle. *)
Theorem replaces_in_one_tick_share_one_pass
  (st : Store) (calls : list (value * option ActionOptions)) :
  reachable st ->
  Forall (fun call => opt_flag optForceSyncOnIOs call.2 = false) calls ->
  let st' := replace_all calls st in
  log st' = log st
  /\ exists evs,
       log (tickEnd st') = log st ++ evs
       /\ count is_pass evs <= 1
       /\ (forall g, In (EvPass g) evs -> g = currentGlobal st')
       /\ (throttleWaiting st' = true ->
           forceOnHeavyAnimation st' = true \/ isHeavyAnimating st' = false ->
           count is_pass evs = 1).
Proof.
  intros Hr Hall st'.
  destruct (reachable_callbacks_shape st Hr) as [ids Hids].
  destruct (replace_all_async calls st Hall) as (Hlog & _ & Hcbs).
  fold st' in Hlog, Hcbs. rewrite <- Hcbs in Hids.
  split; [exact Hlog |].
  rewrite (tickEnd_log st' ids Hids), Hlog.
  destruct (callbacks_log_one_pass st' ids) as [Hone Hstate].
  eexists. split; [reflexivity |].
  destruct (throttleWaiting st' && _) eqn:Hrun.
  - rewrite Hone. by repeat split.
  - split; [unfold count; simpl; lia |]. split; [by intros g [] |].
    intros Hw Hgo. rewrite Hw in Hrun. simpl in Hrun.
    destruct Hgo as [Hgo | Hgo]; rewrite Hgo in Hrun; simpl in Hrun;
      [discriminate |].
    by rewrite orb_true_r in Hrun.
Qed.

(** Three replaces in the first tick of the module: one pass, on the last
    state. *)
Lemma replaces_in_one_tick_witness :
  log (replace_all [(VObj 1, None); (VObj 2, None); (VObj 3, None)] initial_store) = []
  /\ log (tickEnd (replace_all [(VObj 1, None); (VObj 2, None); (VObj 3, None)]
                     initial_store))
     = [EvPass (VObj 3)].
Proof.
  destruct (replaces_in_one_tick_share_one_pass initial_store
              [(VObj 1, None); (VObj 2, None); (VObj 3, None)] reachable_init)
    as (Hquiet & _).
  - by repeat constructor.
  - split; [exact Hquiet | reflexivity].
Defined.

(** ** The override from outside: [forceOnHeavyAnimationOnce] *)

(** X5: [forceOnHeavyAnimationOnce] lets exactly the next pass through a
    busy gate.  After it, a replace that passes no option has its pass run
    at the end of the tick although the gate is busy; the pass disarms the
    override, so the pass of a further replace is deferred; and calling
    the function twice arms no more than calling it once. *)
Theorem forceOnHeavyAnimationOnce_arms_one_pass (st : Store) (v v2 : value) :
  reachable st ->
  isHeavyAnimating st = true ->
  typeof v = "object" -> strict_eq v (currentGlobal st) = false ->
  typeof v2 = "object" -> strict_eq v2 v = false ->
  let s1 := tickEnd (setUntypedGlobal v None (forceOnHeavyAnimationOnce st)) in
  (exists evs, log s1 = log st ++ EvPass v :: evs /\ count is_pass evs = 0)
  /\ forceOnHeavyAnimation s1 = false
  /\ log (tickEnd (setUntypedGlobal v2 None s1)) = log s1
  /\ onceIdle (tickEnd (setUntypedGlobal v2 None s1)) = S (onceIdle st)
  /\ forceOnHeavyAnimationOnce (forceOnHeavyAnimationOnce st)
     = forceOnHeavyAnimationOnce st.
Proof.
  intros Hr Hbusy Ht He Ht2 He2 s1.
  destruct (reachable_callbacks_shape st Hr) as [ids Hids].
  pose (s0 := set_forceOnHeavyAnimation false
                (set_throttleWaiting false
                   (set_throttleWaiting true
                      (set_currentGlobal v (forceOnHeavyAnimationOnce st))))).
  assert (Hc0 : callbacks s0 = CbUpdateContainers :: map CbExternal ids) by exact Hids.
  assert (Hs1 : s1 = forEach_callback s0).
  { unfold s1, setUntypedGlobal. simpl.
    rewrite (guard_true_intro v st Ht He). simpl. unfold runCallbacksThrottled.
    rewrite tickEnd_waiting by reflexivity.
    by rewrite runCallbacks_armed by reflexivity. }
  pose proof (forEach_callback_outside s0) as Ho.
  rewrite <- Hs1 in Ho. split_outside Ho.
  assert (Hg : bool_decide (typeof v2 = "object")
               && negb (strict_eq v2 (currentGlobal s1)) = true).
  { apply guard_true_intro; [done | congruence]. }
  split; [| split; [done | split; [| split; [| reflexivity]]]].
  - rewrite Hs1, (forEach_callback_log s0 ids Hc0).
    destruct (callbacks_log_one_pass s0 ids) as [Hone _].
    unfold callbacks_log in *. simpl in *. eexists. split; [reflexivity |].
    unfold count in *. simpl in Hone. by injection Hone.
  - unfold setUntypedGlobal. rewrite Hg. simpl. unfold runCallbacksThrottled.
    rewrite tickEnd_waiting by reflexivity.
    by rewrite runCallbacks_deferred by (simpl; congruence).
  - unfold setUntypedGlobal. rewrite Hg. simpl. unfold runCallbacksThrottled.
    rewrite tickEnd_waiting by reflexivity.
    rewrite runCallbacks_deferred by (simpl; congruence).
    simpl. congruence.
Qed.

Lemma forceOnHeavyAnimationOnce_witness :
  log (tickEnd (setUntypedGlobal (VObj 2) None (forceOnHeavyAnimationOnce busy_disarmed)))
  = log busy_disarmed ++ [EvPass (VObj 2)]
  /\ log (tickEnd (setUntypedGlobal (VObj 3) None
                     (tickEnd (setUntypedGlobal (VObj 2) None
                                 (forceOnHeavyAnimationOnce busy_disarmed)))))
     = log busy_disarmed ++ [EvPass (VObj 2)].
Proof.
  destruct (forceOnHeavyAnimationOnce_arms_one_pass busy_disarmed (VObj 2) (VObj 3)
              busy_disarmed_reachable eq_refl eq_refl eq_refl eq_refl eq_refl)
    as (_ & _ & Hnext & _).
  split; [reflexivity |]. rewrite Hnext. reflexivity.
Defined.

(** ** Passes deferred by the gate *)

Lemma request_tick_deferred st :
  forceOnHeavyAnimation st = false -> isHeavyAnimating st = true ->
  request_tick st = set_onceIdle (S (onceIdle st)) (set_throttleWaiting false st).
Proof.
  intros Hf Hh. unfold request_tick, runCallbacksThrottled.
  rewrite tickEnd_waiting by reflexivity.
  rewrite runCallbacks_deferred by (simpl; assumption).
  reflexivity.
Qed.

Lemma iter_request_tick k : forall st,
  forceOnHeavyAnimation st = false -> isHeavyAnimating st = true ->
  log (Nat.iter k request_tick st) = log st
  /\ onceIdle (Nat.iter k request_tick st) = onceIdle st + k
  /\ forceOnHeavyAnimation (Nat.iter k request_tick st) = false
  /\ isHeavyAnimating (Nat.iter k request_tick st) = true
  /\ callbacks (Nat.iter k request_tick st) = callbacks st
  /\ currentGlobal (Nat.iter k request_tick st) = currentGlobal st
  /\ containers (Nat.iter k request_tick st) = containers st.
Proof.
  induction k as [| k IH]; intros st Hf Hh; simpl.
  - rewrite Nat.add_0_r. by repeat split.
  - destruct (IH st Hf Hh) as (Hl & Ho & Hf' & Hh' & Hc & Hg & Hcs).
    rewrite (request_tick_deferred _ Hf' Hh'). simpl.
    rewrite Ho. repeat split; try done; lia.
Qed.

(** X6: while the gate is busy and the override is not armed, every tick
    in which a pass is requested runs none and registers once with the
    gate; when the gate turns idle the registrations fire together and
    the end of that tick runs a single pass, on the live state, leaving
    no registration behind. *)
Theorem deferred_passes_run_once_when_idle (st : Store) (k : nat) :
  reachable st ->
  isHeavyAnimating st = true ->
  forceOnHeavyAnimation st = false ->
  let busy := Nat.iter k request_tick st in
  log busy = log st
  /\ onceIdle busy = onceIdle st + k
  /\ onceIdle (tickEnd (heavyAnimationEnd busy)) = 0
  /\ (0 < onceIdle st + k ->
      exists evs,
        log (tickEnd (heavyAnimationEnd busy)) = log st ++ EvPass (currentGlobal st) :: evs
        /\ count is_pass evs = 0).
Proof.
  intros Hr Hh Hf busy.
  destruct (reachable_callbacks_shape st Hr) as [ids Hids].
  destruct (iter_request_tick k st Hf Hh) as (Hl & Ho & Hf' & Hh' & Hc & Hg & Hcs).
  fold busy in Hl, Ho, Hf', Hh', Hc, Hg, Hcs.
  split; [exact Hl |]. split; [exact Ho |].
  unfold heavyAnimationEnd. rewrite iter_runCallbacksThrottled, Ho.
  destruct (Nat.eqb (onceIdle st + k) 0) eqn:Hz.
  - apply Nat.eqb_eq in Hz. split; [| lia].
    unfold tickEnd. simpl. destruct (throttleWaiting busy); [| reflexivity].
    rewrite runCallbacks_idle by (simpl; auto).
    pose proof (forEach_callback_outside
                  (set_throttleWaiting false
                     (set_onceIdle 0 (set_isHeavyAnimating false busy)))) as Hout.
    by split_outside Hout.
  - rewrite tickEnd_waiting by reflexivity.
    rewrite runCallbacks_idle by (simpl; auto).
    match goal with |- context [forEach_callback ?s] =>
      pose proof (forEach_callback_outside s) as Hout;
      pose proof (forEach_callback_log s ids) as Hlog;
      destruct (callbacks_log_one_pass s ids) as [Hone _]
    end.
    split_outside Hout. split; [done |]. intros _.
    rewrite Hlog by (simpl; congruence). simpl.
    unfold callbacks_log in *. simpl in *. rewrite Hl, Hg, Hcs.
    eexists. split; [reflexivity |].
    unfold count in *. simpl in Hone. rewrite Hg, Hcs in Hone. by injection Hone.
Qed.

(** Three requested ticks under a busy gate, then the gate turns idle. *)
Lemma deferred_passes_witness :
  log (Nat.iter 3 request_tick busy_disarmed) = log busy_disarmed
  /\ onceIdle (Nat.iter 3 request_tick busy_disarmed) = 3
  /\ log (tickEnd (heavyAnimationEnd (Nat.iter 3 request_tick busy_disarmed)))
     = log busy_disarmed ++ [EvPass (VObj 1)].
Proof.
  destruct (deferred_passes_run_once_when_idle busy_disarmed 3
              busy_disarmed_reachable eq_refl eq_refl) as (Hquiet & Hreg & _).
  split; [exact Hquiet |]. split; [exact Hreg | reflexivity].
Defined.

(** ** C7: the gate decides at the end of the tick *)














(** ** What a pass leaves alone *)

Lemma visit_container_same_subscriber global id c :
  match visit_container global id c with
  | Continue c' _ | Abort c' _ => same_subscriber (id, c) (id, c')
  end.
Proof.
  unfold visit_container, same_subscriber.
  destruct (activateContainer c global (ownProps c)) as [active c1] eqn:Ha.
  apply activateContainer_fields in Ha as (Hm & Hf & Ho & _).
  destruct active; simpl.
  - destruct (mapStateToProps c global (ownProps c)); [| by repeat split].
    destruct (_ && _); by repeat split.
  - by repeat split.
Qed.

(** X7: a pass neither adds, removes nor reorders containers, and it
    leaves every container's mapper, activation function and own props as
    they were: only [stuckTo] and [mappedProps] may change. *)
Theorem pass_keeps_the_registry (global : value) (cs : list (string * Container)) :
  Forall2 same_subscriber cs (updateContainers_loop global cs).1
  /\ map fst (updateContainers_loop global cs).1 = map fst cs.
Proof.
  induction cs as [| [k c] rest [IH1 IH2]]; [by split; constructor |].
  simpl. pose proof (visit_container_same_subscriber global k c) as Hv.
  destruct (visit_container global k c) as [c' e | c' e].
  - destruct (updateContainers_loop global rest) as [rest' evs']. simpl in *.
    split; [by constructor | by rewrite IH2].
  - simpl. split; [| reflexivity]. constructor; [exact Hv |].
    clear. induction rest as [| x rest IH]; constructor; [by repeat split | exact IH].
Qed.

(** ** A second pass on the same state *)

Lemma strict_eq_refl v : v <> VNaN -> strict_eq v v = true.
Proof.
  intros Hv. destruct v; try congruence; by apply bool_decide_eq_true.
Qed.

Lemma arePropsShallowEqual_refl p : nan_free p -> arePropsShallowEqual p p = true.
Proof.
  intros Hp. apply arePropsShallowEqual_true_iff. intros k. unfold same_at.
  destruct (p !! k) as [v |] eqn:Hk; [| done].
  apply strict_eq_refl. intros ->. by apply (Hp k).
Qed.

Lemma visit_container_settled global id c :
  settles global c ->
  match visit_container global id c with
  | Continue c' _ =>
      settles global c' /\ visit_container global id c' = Continue c' [EvMapper id]
  | Abort _ _ => True
  end.
Proof.
  intros Hs. pose proof Hs as [Hf Hnan].
  unfold visit_container at 1, activateContainer. rewrite Hf. simpl.
  destruct (mapStateToProps c global (ownProps c)) as [new | err] eqn:Hm; [| done].
  destruct (Hnan new eq_refl) as [Hnan' _]. clear Hnan. rename Hnan' into Hnan.
  destruct (negb (Nat.eqb (size new) 0)
            && negb (arePropsShallowEqual_opt (mappedProps c) new)) eqn:Hch.
  - split; [exact Hs |].
    unfold visit_container, activateContainer. simpl. rewrite Hf, Hm. simpl.
    rewrite (arePropsShallowEqual_refl new Hnan).
    by rewrite andb_false_r.
  - split; [exact Hs |].
    unfold visit_container, activateContainer. rewrite Hf, Hm. simpl.
    by rewrite Hch.
Qed.

(** X8: when no mapper throws, the containers have no activation function
    and the mappers build nothing, returning props that hold no NaN and
    only primitives or values they were handed (the state object, values
    of the own props), a second pass on the same state changes no
    container and notifies no one: it only calls the mappers again. *)
Theorem second_pass_on_same_state_is_silent
  (global : value) (cs : list (string * Container)) :
  Forall (fun kc => settles global kc.2) cs ->
  count is_error (updateContainers_loop global cs).2 = 0 ->
  let cs1 := (updateContainers_loop global cs).1 in
  (updateContainers_loop global cs1).1 = cs1
  /\ (updateContainers_loop global cs1).2 = map (fun kc => EvMapper kc.1) cs1
  /\ forall id, count (is_notify id) (updateContainers_loop global cs1).2 = 0.
Proof.
  intros Hall Herr cs1.
  assert (Hloop : updateContainers_loop global cs1 = (cs1, map (fun kc => EvMapper kc.1) cs1)).
  { unfold cs1. clear cs1. induction cs as [| [k c] rest IH]; [reflexivity |].
    apply Forall_cons in Hall as [Hc Hrest]. simpl in Hc, Herr |- *.
    pose proof (visit_container_settled global k c Hc) as Hv.
    pose proof (visit_container_events global k c) as Hev.
    destruct (visit_container global k c) as [c' e | c' e].
    - destruct (updateContainers_loop global rest) as [rest' evs'] eqn:Hr.
      simpl in *. rewrite count_app in Herr.
      destruct Hv as [_ ->]. rewrite IH by (done || lia). reflexivity.
    - destruct Hev as (_ & err & -> & _). discriminate. }
  rewrite Hloop. simpl. split; [reflexivity |]. split; [reflexivity |].
  intros id. clear. induction cs1 as [| kc cs1 IH]; [reflexivity | exact IH].
Qed.

Lemma registry_xz_settles : Forall (fun kc => settles (VObj 1) kc.2) registry_xz.
Proof.
  assert (Hx : settles (VObj 1) container_x).
  { split; [reflexivity |]. simpl. intros new [= <-]. split.
    - intros k Hk. destruct (decide (k = "value")) as [-> | Hne];
        [by rewrite lookup_singleton_eq in Hk | by rewrite lookup_singleton_ne in Hk].
    - intros k v Hk. right. left.
      destruct (decide (k = "value")) as [-> | Hne];
        [rewrite lookup_singleton_eq in Hk; congruence
        | by rewrite lookup_singleton_ne in Hk]. }
  unfold registry_xz.
  apply Forall_cons. split; [exact Hx |].
  apply Forall_cons. split; [exact Hx | apply Forall_nil_2].
Qed.

(** The first pass after a replace notifies [X] and [Z]; the second
    notifies no one. *)
Lemma second_pass_witness :
  (updateContainers_loop (VObj 1) registry_xz).2
  = [EvMapper "X"; EvNotify "X"; EvMapper "Z"; EvNotify "Z"]
  /\ (updateContainers_loop (VObj 1) (updateContainers_loop (VObj 1) registry_xz).1).2
     = [EvMapper "X"; EvMapper "Z"].
Proof.
  destruct (second_pass_on_same_state_is_silent (VObj 1) registry_xz
              registry_xz_settles eq_refl) as (_ & Hsecond & _).
  split; [reflexivity |]. rewrite Hsecond. reflexivity.
Defined.

(** X9: a container whose mapper returns props holding a NaN is assigned
    them and notified in every pass that derives its props, whatever
    props it held before, the same ones included, because NaN is not
    strictly equal to itself (the redundant update the source warns about
    in debug builds). *)
Theorem nan_props_notify_every_pass
  (global : value) (id : string) (c c1 : Container) (new : Props) (k : string) :
  activateContainer c global (ownProps c) = (true, c1) ->
  mapStateToProps c global (ownProps c) = MProps new ->
  new !! k = Some VNaN ->
  visit_container global id c
  = Continue (set_mappedProps (Some new) c1) [EvMapper id; EvNotify id].
Proof.
  intros Hact Hmap Hnan.
  assert (Hsize : Nat.eqb (size new) 0 = false).
  { apply Nat.eqb_neq. intros Hz. apply map_size_empty_iff in Hz. subst.
    by rewrite lookup_empty in Hnan. }
  assert (Hne : arePropsShallowEqual_opt (mappedProps c) new = false).
  { destruct (mappedProps c) as [old |]; [| reflexivity]. simpl.
    destruct (arePropsShallowEqual old new) eqn:Heq; [| reflexivity].
    pose proof (proj1 (arePropsShallowEqual_true_iff old new) Heq k) as Hk.
    unfold same_at in Hk. rewrite Hnan in Hk.
    destruct (old !! k) as [x |]; [| done].
    destruct x; simpl in Hk; try done; by apply bool_decide_eq_true in Hk. }
  unfold visit_container. rewrite Hact. simpl. by rewrite Hmap, Hsize, Hne.
Qed.

(** A container that already holds the NaN props is notified again. *)
Lemma nan_props_witness :
  visit_container (VObj 0) "N" container_nan
  = Continue (set_mappedProps (Some {[ "ratio" := VNaN ]}) container_nan)
      [EvMapper "N"; EvNotify "N"].
Proof.
  apply (nan_props_notify_every_pass (VObj 0) "N" container_nan container_nan
           {[ "ratio" := VNaN ]} "ratio"); reflexivity.
Defined.

(** ** The latch never lets go *)

Lemma run_aprog_latches_truthy stuckTo0 p : forall cur,
  (run_aprog stuckTo0 p cur).1.2 = cur
  \/ truthy (run_aprog stuckTo0 p cur).1.2 = true.
Proof.
  induction p as [v | v k IH]; intros cur; [by left |].
  simpl. unfold stickToFirst.
  match goal with |- context [run_aprog stuckTo0 (k ?r) ?c] =>
    specialize (IH r c); destruct (run_aprog stuckTo0 (k r) c) as [[w c'] calls]
  end.
  simpl in *. destruct IH as [-> | IH]; [| by right].
  destruct (truthy v && negb (truthy stuckTo0)) eqn:Hv; [| by left].
  right. by apply andb_prop in Hv as [-> _].
Qed.

(** X10: whatever the activation function does, once [stuckTo] holds a
    truthy value no evaluation changes it again; and an evaluation that
    does change [stuckTo] leaves a truthy value in it, so an empty
    candidate is never latched. *)
Theorem latch_is_never_overwritten (c : Container) :
  (truthy (stuckTo c) = true ->
   forall inputs, stuckTo (activate_seq c inputs).2 = stuckTo c)
  /\ (forall global props,
        stuckTo (activateContainer c global props).2 = stuckTo c
        \/ truthy (stuckTo (activateContainer c global props).2) = true).
Proof.
  split.
  - intros Hs inputs. revert c Hs.
    induction inputs as [| [g p] rest IH]; intros c Hs; [reflexivity |].
    simpl. destruct (activateContainer_latched c g p Hs) as [Hst _].
    specialize (IH (activateContainer c g p).2).
    destruct (activate_seq (activateContainer c g p).2 rest) as [calls final].
    simpl in *. rewrite IH by congruence. exact Hst.
  - intros global props. unfold activateContainer.
    destruct (activationFn c) as [f |]; [| by left].
    pose proof (run_aprog_latches_truthy (stuckTo c) (f global props) (stuckTo c)) as Hrun.
    destruct (run_aprog _ _ _) as [[v cur] calls]. exact Hrun.
Qed.

(** A latched container evaluated three times by a function that passes
    "a" and "b" each time keeps its latch. *)
Lemma latch_witness :
  stuckTo (activate_seq container_latched [(VObj 0, ∅); (VObj 1, ∅); (VObj 2, ∅)]).2
  = VStr "b".
Proof.
  apply (proj1 (latch_is_never_overwritten container_latched) eq_refl).
Defined.

(** ** Mounting and rendering a subscriber: [withUntypedGlobal] *)

Lemma containers_set_absent id c cs :
  containers_get id cs = None -> containers_set id c cs = cs ++ [(id, c)].
Proof.
  induction cs as [| [k c0] cs IH]; intros Hget; [reflexivity |].
  simpl in *. destruct (decide (k = id)); [discriminate |]. by rewrite IH.
Qed.

Lemma containers_set_same id c cs :
  containers_get id cs = Some c -> containers_set id c cs = cs.
Proof.
  induction cs as [| [k c0] cs IH]; intros Hget; [discriminate |].
  simpl in *. destruct (decide (k = id)) as [-> | Hne].
  - by injection Hget as ->.
  - by rewrite IH.
Qed.

Lemma emit_nil st : emit [] st = st.
Proof. unfold emit. rewrite app_nil_r. by destruct st. Qed.

Lemma set_containers_same st : set_containers (containers st) st = st.
Proof. by destruct st. Qed.

(** X11: the first render of a subscriber appends its container to the
    registry, with the own props it was rendered with and an empty latch,
    without evaluating the activation function.  When the mapper returns,
    the container holds the props derived from the live state and nothing
    is logged; when the mapper throws, the error is reported once and the
    container is registered without derived props. *)
Theorem first_render_registers_the_container
  (id : string) (m : MapStateToProps) (a : option ActivationFn) (props : Props)
  (st : Store) :
  containers_get id (containers st) = None ->
  match m (currentGlobal st) props with
  | MProps derived =>
      renderContainer id m a props st
      = set_containers (containers st ++ [(id, mounted m a props (Some derived))]) st
  | MThrow err =>
      renderContainer id m a props st
      = emit [EvError err]
          (set_containers (containers st ++ [(id, mounted m a props None)]) st)
  end.
Proof.
  intros Hget. unfold renderContainer, render_container. rewrite Hget. simpl.
  destruct (m (currentGlobal st) props) as [derived | err]; simpl.
  - rewrite emit_nil. by rewrite containers_set_absent.
  - by rewrite containers_set_absent.
Qed.

Lemma first_render_witness :
  renderContainer "T" mapper_throws None ∅ initial_store
  = emit [EvError (VStr "boom")]
      (set_containers [("T", mounted mapper_throws None ∅ None)] initial_store).
Proof.
  exact (first_render_registers_the_container "T" mapper_throws None ∅ initial_store
           eq_refl).
Defined.

Lemma strict_eq_true_eq x y : strict_eq x y = true -> x = y.
Proof.
  destruct x; simpl; intros H; try discriminate; by apply bool_decide_eq_true in H.
Qed.

Lemma arePropsShallowEqual_eq (a b : Props) : arePropsShallowEqual a b = true -> a = b.
Proof.
  intros H. apply map_eq. intros k.
  pose proof (proj1 (arePropsShallowEqual_true_iff a b) H k) as Hk.
  unfold same_at in Hk.
  destruct (a !! k), (b !! k); try done. by rewrite (strict_eq_true_eq _ _ Hk).
Qed.

Lemma set_ownProps_same c : set_ownProps (ownProps c) c = c.
Proof. by destruct c. Qed.

(** X12: rendering a mounted subscriber that holds derived props with own
    props shallow-equal to the stored ones changes nothing in the store:
    neither the mapper nor the activation function is called.  With own
    props that differ and a container that is not active, the new own
    props are stored and the derived props are kept as they were. *)
Theorem rerender_with_same_props_is_a_no_op
  (id : string) (m : MapStateToProps) (a : option ActivationFn) (props : Props)
  (st : Store) (c : Container) (derived : Props) :
  containers_get id (containers st) = Some c ->
  mappedProps c = Some derived ->
  (arePropsShallowEqual (ownProps c) props = true ->
   renderContainer id m a props st = st)
  /\ (arePropsShallowEqual (ownProps c) props = false ->
      (activateContainer c (currentGlobal st) props).1 = false ->
      renderContainer id m a props st
      = set_containers
          (containers_set id
             (set_ownProps props (activateContainer c (currentGlobal st) props).2)
             (containers st)) st
      /\ mappedProps (activateContainer c (currentGlobal st) props).2 = Some derived).
Proof.
  intros Hget Hderived. unfold renderContainer, render_container.
  rewrite Hget, Hderived. split.
  - intros Heq. rewrite Heq. simpl. rewrite emit_nil.
    rewrite <- (arePropsShallowEqual_eq _ _ Heq), set_ownProps_same.
    rewrite (containers_set_same _ _ _ Hget). apply set_containers_same.
  - intros Hne Hinactive. rewrite Hne. simpl.
    destruct (activateContainer c (currentGlobal st) props) as [active c1] eqn:Hact.
    simpl in Hinactive. subst active. simpl. rewrite emit_nil.
    split; [reflexivity |].
    apply activateContainer_fields in Hact as (_ & _ & _ & ->). exact Hderived.
Qed.

Lemma rerender_witness :
  renderContainer "X" mapper_of_global None ∅ store_xyz = store_xyz.
Proof.
  apply (proj1 (rerender_with_same_props_is_a_no_op "X" mapper_of_global None ∅
                  store_xyz container_x {[ "value" := VObj 0 ]} eq_refl eq_refl)).
  reflexivity.
Defined.

(** ** One container per subscriber *)

Lemma containers_get_None id cs : containers_get id cs = None <-> id ∉ map fst cs.
Proof.
  induction cs as [| [k c] cs IH]; simpl.
  - split; [intros _; apply not_elem_of_nil | done].
  - rewrite not_elem_of_cons. destruct (decide (k = id)) as [-> | Hne].
    + split; [discriminate | by intros [? _]].
    + rewrite IH. split; [by split | by intros [_ ?]].
Qed.

Lemma containers_set_keys id c cs :
  map fst (containers_set id c cs)
  = match containers_get id cs with
    | Some _ => map fst cs
    | None => map fst cs ++ [id]
    end.
Proof.
  induction cs as [| [k c0] cs IH]; [reflexivity |].
  simpl. destruct (decide (k = id)) as [-> | Hne]; [reflexivity |].
  simpl. rewrite IH. by destruct (containers_get id cs).
Qed.

Lemma containers_delete_keys id cs :
  map fst (containers_delete id cs) = filter (fun k => k <> id) (map fst cs).
Proof.
  unfold containers_delete. induction cs as [| [k c] cs IH]; [reflexivity |].
  rewrite filter_cons. simpl. rewrite filter_cons.
  destruct (decide (k <> id)); simpl; by rewrite IH.
Qed.

Lemma run_callback_keys cb st : keys (run_callback cb st) = keys st.
Proof.
  destruct cb; [| reflexivity]. unfold keys, run_callback, updateContainers.
  pose proof (updateContainers_loop_keys (currentGlobal st) (containers st)) as H.
  destruct (updateContainers_loop _ _) as [cs evs]. exact H.
Qed.

Lemma runCallbacks_keys st : keys (runCallbacks st) = keys st.
Proof.
  assert (Hfold : forall cbs s, keys (foldl (fun s cb => run_callback cb s) s cbs) = keys s).
  { induction cbs as [| cb cbs IH]; intros s; [reflexivity |].
    simpl. by rewrite IH, run_callback_keys. }
  unfold runCallbacks, getIsHeavyAnimating, forEach_callback.
  destruct (forceOnHeavyAnimation st).
  - exact (Hfold _ (set_forceOnHeavyAnimation false st)).
  - destruct (isHeavyAnimating st); [reflexivity | apply Hfold].
Qed.

Lemma setUntypedGlobal_keys v o st : keys (setUntypedGlobal v o st) = keys st.
Proof.
  unfold setUntypedGlobal. destruct (_ && _); [| reflexivity].
  destruct (opt_flag optForceSyncOnIOs o); [by rewrite runCallbacks_keys |].
  by destruct (opt_flag optForceOnHeavyAnimation o).
Qed.

Lemma tickEnd_keys st : keys (tickEnd st) = keys st.
Proof.
  unfold tickEnd. destruct (throttleWaiting st); [| reflexivity].
  by rewrite runCallbacks_keys.
Qed.

Lemma run_op_keys fuel o st st' :
  final_store (run_op fuel o st) = Some st' ->
  match o with
  | OpRender id _ _ _ =>
      keys st' = if decide (id ∈ keys st) then keys st else keys st ++ [id]
  | OpUnmount id => keys st' = filter (fun k => k <> id) (keys st)
  | _ => keys st' = keys st
  end.
Proof.
  intros Hf. destruct o; simpl in Hf; try (injection Hf as <-); try reflexivity.
  - apply setUntypedGlobal_keys.
  - pose proof (callAction_respects (fun a b => keys b = keys a)) as H.
    specialize (H (fun _ => eq_refl) (fun a b c Hab Hbc => eq_trans Hbc Hab)).
    specialize (H setUntypedGlobal_keys (fun _ _ => eq_refl) (fun _ _ => eq_refl)).
    specialize (H fuel name payload options st).
    destruct (callAction fuel name payload options st); simpl in Hf;
      [injection Hf as <- | injection Hf as <- | discriminate]; exact H.
  - unfold addUntypedActionHandler in Hf.
    destruct (actionHandlers st !! name); [| destruct (inherited name)];
      simpl in Hf; by injection Hf as <-.
  - unfold renderContainer.
    destruct (render_container _ _ _ _) as [c evs]. unfold keys. simpl.
    rewrite containers_set_keys.
    destruct (containers_get id (containers st)) as [c0 |] eqn:Hget.
    + rewrite decide_True; [reflexivity |].
      destruct (decide (id ∈ map fst (containers st))) as [Hin | Hnin]; [done |].
      apply containers_get_None in Hnin. congruence.
    + rewrite decide_False; [reflexivity |]. by apply containers_get_None.
  - unfold keys. simpl. apply containers_delete_keys.
  - apply tickEnd_keys.
  - unfold heavyAnimationEnd. rewrite iter_runCallbacksThrottled.
    by destruct (Nat.eqb (onceIdle st) 0).
Qed.

(** X13: in every reachable store the registry holds one container per
    subscriber id: a render creates a container only for an id that has
    none, and neither passes, replaces nor dispatches add, drop or reorder
    containers. *)
Theorem registry_ids_are_unique (st : Store) :
  reachable st ->
  NoDup (keys st)
  /\ forall fuel o st',
       final_store (run_op fuel o st) = Some st' ->
       match o with
       | OpRender id _ _ _ =>
           keys st' = if decide (id ∈ keys st) then keys st else keys st ++ [id]
       | OpUnmount id => keys st' = filter (fun k => k <> id) (keys st)
       | _ => keys st' = keys st
       end.
Proof.
  intros Hr. split; [| intros fuel o st'; apply run_op_keys].
  induction Hr as [| st st' fuel o Hr IH Hf]; [constructor |].
  apply run_op_keys in Hf. destruct o; try (by rewrite Hf).
  - rewrite Hf. destruct (decide (id ∈ keys st)) as [Hin | Hnin]; [exact IH |].
    apply NoDup_app. split; [exact IH |]. split; [| apply NoDup_singleton].
    intros k Hk Hk'. apply list_elem_of_singleton in Hk'. by subst.
  - rewrite Hf. by apply NoDup_filter.
Qed.

Lemma registry_ids_witness :
  NoDup (keys (renderContainer "X" mapper_of_global None ∅ store_xyz))
  /\ keys store_xyz = ["X"; "Y"; "Z"].
Proof.
  split; [| reflexivity].
  apply (proj1 (registry_ids_are_unique
                  (renderContainer "X" mapper_of_global None ∅ store_xyz)
                  (reachable_step store_xyz _ 0 (OpRender "X" mapper_of_global None ∅)
                     store_xyz_reachable eq_refl))).
Defined.

(** ** Unmounting: [useUnmountCleanup] *)

Lemma containers_get_delete id k cs :
  containers_get k (containers_delete id cs)
  = if decide (k = id) then None else containers_get k cs.
Proof.
  unfold containers_delete. induction cs as [| [k0 c] cs IH].
  - by destruct (decide (k = id)).
  - rewrite filter_cons. simpl.
    destruct (decide (k0 <> id)) as [Hne | Heq]; simpl.
    + rewrite IH. destruct (decide (k0 = k)) as [-> | Hk]; [| reflexivity].
      by rewrite decide_False.
    + apply dec_stable in Heq. subst k0. rewrite IH.
      destruct (decide (k = id)) as [-> | Hk]; [reflexivity |].
      by rewrite decide_False.
Qed.

Lemma containers_delete_absent id cs :
  id ∉ map fst cs -> containers_delete id cs = cs.
Proof.
  unfold containers_delete. induction cs as [| [k c] cs IH]; intros Hnin; [reflexivity |].
  simpl in Hnin. apply not_elem_of_cons in Hnin as [Hne Hnin].
  rewrite filter_cons. simpl. rewrite decide_True by congruence. by rewrite IH.
Qed.

Lemma containers_delete_snoc id c cs :
  id ∉ map fst cs -> containers_delete id (cs ++ [(id, c)]) = cs.
Proof.
  intros Hnin. unfold containers_delete. rewrite filter_app.
  fold (containers_delete id cs). rewrite containers_delete_absent by done.
  rewrite filter_cons. simpl. rewrite decide_False by (intros H; by apply H).
  by rewrite filter_nil, app_nil_r.
Qed.

(** X14: unmounting removes the subscriber's container and no other: the
    id is no longer found, every other id is found as before, and a pass
    says nothing about the id any more.  Unmounting an id that is not
    mounted changes nothing, and mounting a new id and unmounting it gives
    the registry back. *)
Theorem unmount_removes_only_that_container (id : string) (st : Store) :
  containers_get id (containers (unmountContainer id st)) = None
  /\ (forall k, k <> id ->
        containers_get k (containers (unmountContainer id st))
        = containers_get k (containers st))
  /\ (forall global,
        count (is_notify id)
          (updateContainers_loop global (containers (unmountContainer id st))).2 = 0
        /\ count (is_mapper id)
             (updateContainers_loop global (containers (unmountContainer id st))).2 = 0)
  /\ (id ∉ keys st -> unmountContainer id st = st)
  /\ (id ∉ keys st -> forall m a props,
        containers (unmountContainer id (renderContainer id m a props st))
        = containers st).
Proof.
  unfold unmountContainer. simpl.
  split; [| split; [| split; [| split]]].
  - rewrite containers_get_delete. by rewrite decide_True.
  - intros k Hk. rewrite containers_get_delete. by rewrite decide_False.
  - intros global.
    apply (updateContainers_loop_foreign global id (containers_delete id (containers st))
             (updateContainers_loop global (containers_delete id (containers st))).1
             (updateContainers_loop global (containers_delete id (containers st))).2).
    + apply containers_get_None. rewrite containers_get_delete. by rewrite decide_True.
    + by destruct (updateContainers_loop _ _).
  - intros Hnin. rewrite containers_delete_absent by exact Hnin.
    apply set_containers_same.
  - intros Hnin m a props. unfold renderContainer.
    destruct (render_container _ _ _ _) as [c evs]. simpl.
    rewrite containers_set_absent by (by apply containers_get_None).
    by apply containers_delete_snoc.
Qed.

Lemma unmount_witness :
  keys (unmountContainer "Y" store_xyz) = ["X"; "Z"]
  /\ containers (unmountContainer "W" (renderContainer "W" mapper_throws None ∅ store_xyz))
     = containers store_xyz.
Proof.
  split; [reflexivity |].
  apply (proj2 (proj2 (proj2 (proj2 (unmount_removes_only_that_container "W" store_xyz))))).
  vm_compute. intros Hin.
  repeat (apply elem_of_cons in Hin as [Hin | Hin]; [discriminate |]).
  by apply elem_of_nil in Hin.
Defined.

(** ** Handlers of one action as a pipeline *)

Lemma call_handler_pure dispatch q i f st :
  exists st',
    call_handler dispatch q i (pure_handler f) st = Done tt st'
    /\ currentGlobal st'
       = reduce_response (currentGlobal st) (f (currentGlobal st) (qpayload q))
    /\ actionQueue st' = actionQueue st.
Proof.
  unfold call_handler, pure_handler, reduce_response, DEBUG. simpl.
  set (r := f (currentGlobal st) (qpayload q)).
  destruct (truthy r) eqn:Ht; simpl; [| by eexists].
  destruct (is_thenable r) eqn:Hth; simpl; [by eexists |].
  eexists. split; [reflexivity |]. rewrite setUntypedGlobal_actionQueue.
  split; [| reflexivity].
  destruct (bool_decide (typeof r = "object")) eqn:Hobj.
  - apply bool_decide_eq_true in Hobj. by apply setUntypedGlobal_object_read.
  - rewrite setUntypedGlobal_guard_false; [reflexivity |]. by rewrite Hobj.
Qed.

Lemma forEach_handler_pure dispatch q fs : forall i st,
  exists st',
    forEach_handler dispatch q i (map pure_handler fs) st = Done tt st'
    /\ currentGlobal st'
       = foldl (fun g f => reduce_response g (f g (qpayload q))) (currentGlobal st) fs
    /\ actionQueue st' = actionQueue st.
Proof.
  induction fs as [| f fs IH]; intros i st; simpl; [by eexists |].
  destruct (call_handler_pure dispatch q i f st) as (s1 & -> & Hg & Hq).
  destruct (IH (S i) s1) as (s2 & -> & Hg2 & Hq2).
  exists s2. rewrite Hg2, Hq2, Hg, Hq. by repeat split.
Qed.

(** X15: when the handlers registered under a name only compute a
    response from the state and the payload, a dispatch on an empty queue
    returns, and the live state it leaves is the result of passing the
    state through the handlers in registration order: each handler
    receives the state left by the previous one, and its response becomes
    the state when it is a state object that is not a thenable. *)
Theorem handlers_compose_in_registration_order
  (fuel : nat) (name : string) (payload : value) (options : option ActionOptions)
  (st : Store) (fs : list (value -> value -> value)) :
  2 <= fuel ->
  actionQueue st = [] ->
  actionHandlers st !! name = Some (map pure_handler fs) ->
  exists st',
    handleAction fuel name payload options st = Done tt st'
    /\ currentGlobal st'
       = foldl (fun g f => reduce_response g (f g payload)) (currentGlobal st) fs
    /\ actionQueue st' = [].
Proof.
  intros Hfuel Hq Hhs.
  assert (Htwo : exists st',
            handleAction 2 name payload options st = Done tt st'
            /\ currentGlobal st'
               = foldl (fun g f => reduce_response g (f g payload)) (currentGlobal st) fs
            /\ actionQueue st' = []).
  { simpl. rewrite Hq. simpl. unfold run_queued. simpl. rewrite Hhs.
    match goal with |- context [forEach_handler ?d ?q ?i _ ?s] =>
      destruct (forEach_handler_pure d q fs i s) as (s1 & -> & Hg & Hq1)
    end.
    simpl in Hq1, Hg. rewrite Hq in Hq1. simpl in Hq1. rewrite Hq1. simpl.
    eexists. split; [reflexivity |]. simpl. by split. }
  destruct Htwo as (st' & Hrun & Hg & Hq').
  exists st'. split; [| by split].
  rewrite (handleAction_more_fuel 2 fuel Hfuel name payload options st); [exact Hrun |].
  by rewrite Hrun.
Qed.

Lemma handlers_compose_witness :
  exists st',
    handleAction 3 "count" VNull None store_reducers = Done tt st'
    /\ currentGlobal st' = VObj 15.
Proof.
  destruct (handlers_compose_in_registration_order 3 "count" VNull None store_reducers
              [(fun _ _ => VObj 5); (fun _ _ => VUndefined);
               (fun g _ => match g with VObj n => VObj (n + 10) | _ => VUndefined end)])
    as (st' & Hrun & Hg & _).
  - lia.
  - reflexivity.
  - vm_compute. reflexivity.
  - exists st'. split; [exact Hrun | exact Hg].
Defined.

(** * Properties of the account-settings wrappers *)

(** ** Notification settings *)

Lemma muted_at_expires t t' s :
  (t <= t')%Z -> muted_at t s = false -> muted_at t' s = false.
Proof.
  unfold muted_at. intros Hle Hm.
  apply orb_false_iff in Hm as [-> Hm]. simpl.
  destruct (muteUntil s); try done.
  apply Z.ltb_ge in Hm. apply Z.ltb_ge. lia.
Qed.

(** X16: [fetchNotificationSettings] answers [false] exactly when one of
    the three settings responses is missing, whatever the clock reads.
    When all three are there it answers with settings; between two
    readings of the clock that do not go back, a kind of chat that had
    notifications keeps them (a mute only runs out), a silent kind never
    has them, and the preview flags and the contact-joined flag do not
    depend on the clock. *)
Theorem muted_chats_only_become_unmuted
  (isMuted : value) (p g b : option PeerNotifySettings) (t1 t2 t3 t1' t2' t3' : Z) :
  (t1 <= t1')%Z -> (t2 <= t2')%Z -> (t3 <= t3')%Z ->
  (fetchNotificationSettings isMuted p g b t1 t2 t3 = None
   <-> p = None \/ g = None \/ b = None)
  /\ (forall sp sg sb,
        p = Some sp -> g = Some sg -> b = Some sb ->
        exists r r',
          fetchNotificationSettings isMuted p g b t1 t2 t3 = Some r
          /\ fetchNotificationSettings isMuted p g b t1' t2' t3' = Some r'
          /\ (hasPrivateChatsNotifications r = true ->
              hasPrivateChatsNotifications r' = true)
          /\ (hasGroupNotifications r = true -> hasGroupNotifications r' = true)
          /\ (hasBroadcastNotifications r = true -> hasBroadcastNotifications r' = true)
          /\ (truthy (silent sp) = true -> hasPrivateChatsNotifications r' = false)
          /\ (truthy (silent sg) = true -> hasGroupNotifications r' = false)
          /\ (truthy (silent sb) = true -> hasBroadcastNotifications r' = false)
          /\ hasContactJoinedNotifications r' = hasContactJoinedNotifications r
          /\ hasPrivateChatsMessagePreview r' = hasPrivateChatsMessagePreview r
          /\ hasGroupMessagePreview r' = hasGroupMessagePreview r
          /\ hasBroadcastMessagePreview r' = hasBroadcastMessagePreview r).
Proof.
  intros H1 H2 H3. split.
  - unfold fetchNotificationSettings.
    destruct p as [sp |]; [| by split; [left |]].
    destruct g as [sg |]; [| by split; [right; left |]].
    destruct b as [sb |]; [| by split; [right; right |]].
    split; [discriminate |]. by intros [? | [? | ?]].
  - intros sp sg sb -> -> ->. unfold fetchNotificationSettings.
    eexists. eexists. split; [reflexivity |]. split; [reflexivity |]. simpl.
    repeat split.
    + intros H. apply negb_true_iff in H. apply negb_true_iff. by eapply muted_at_expires.
    + intros H. apply negb_true_iff in H. apply negb_true_iff. by eapply muted_at_expires.
    + intros H. apply negb_true_iff in H. apply negb_true_iff. by eapply muted_at_expires.
    + intros Hs. unfold muted_at. by rewrite Hs.
    + intros Hs. unfold muted_at. by rewrite Hs.
    + intros Hs. unfold muted_at. by rewrite Hs.
Qed.

(** Private chats muted until 100: on at 150, hence on at 200; and no
    answer when the settings of the groups are missing. *)
Lemma muted_chats_witness :
  hasPrivateChatsNotifications
    <$> fetchNotificationSettings VUndefined
          (Some {| silent := VUndefined; muteUntil := VNum 100; showPreviews := VBool true |})
          (Some {| silent := VBool true; muteUntil := VUndefined; showPreviews := VUndefined |})
          (Some {| silent := VUndefined; muteUntil := VNaN; showPreviews := VUndefined |})
          200 200 200
  = Some true
  /\ fetchNotificationSettings VUndefined
       (Some {| silent := VUndefined; muteUntil := VNum 100; showPreviews := VBool true |})
       None
       (Some {| silent := VUndefined; muteUntil := VNaN; showPreviews := VUndefined |})
       150 150 150
     = None.
Proof.
  assert (Hle : (150 <= 200)%Z) by lia.
  split.
  - destruct (proj2 (muted_chats_only_become_unmuted VUndefined
      (Some {| silent := VUndefined; muteUntil := VNum 100; showPreviews := VBool true |})
      (Some {| silent := VBool true; muteUntil := VUndefined; showPreviews := VUndefined |})
      (Some {| silent := VUndefined; muteUntil := VNaN; showPreviews := VUndefined |})
      150 150 150 200 200 200 Hle Hle Hle) _ _ _ eq_refl eq_refl eq_refl)
      as (r & r' & Hr & Hr' & Hkeep & _).
    rewrite Hr'. simpl. f_equal. apply Hkeep.
    injection Hr as <-. reflexivity.
  - apply (proj1 (muted_chats_only_become_unmuted VUndefined
      (Some {| silent := VUndefined; muteUntil := VNum 100; showPreviews := VBool true |})
      None
      (Some {| silent := VUndefined; muteUntil := VNaN; showPreviews := VUndefined |})
      150 150 150 200 200 200 Hle Hle Hle)).
    right. by left.
Defined.

(** X17: the settings [updateNotificationSettings] sends read back, by the
    rule of [fetchNotificationSettings], as notifications on exactly when
    [isSilent] was falsy, at any reading of the clock that is not
    negative and whatever [MAX_INT_32] is; the preview flag is the one
    that was sent, and each kind of peer gets its own request peer. *)
Theorem sent_settings_read_back
  (MAX_INT_32 : Z) (silentC previewC silentG previewG silentB previewB isMuted : value)
  (t1 t2 t3 : Z) :
  (0 <= t1)%Z -> (0 <= t2)%Z -> (0 <= t3)%Z ->
  fetchNotificationSettings isMuted
    (Some (updateNotificationSettings MAX_INT_32 contact silentC previewC).2)
    (Some (updateNotificationSettings MAX_INT_32 group silentG previewG).2)
    (Some (updateNotificationSettings MAX_INT_32 broadcast silentB previewB).2)
    t1 t2 t3
  = Some {| hasContactJoinedNotifications := negb (truthy isMuted);
            hasPrivateChatsNotifications := negb (truthy silentC);
            hasPrivateChatsMessagePreview := previewC;
            hasGroupNotifications := negb (truthy silentG);
            hasGroupMessagePreview := previewG;
            hasBroadcastNotifications := negb (truthy silentB);
            hasBroadcastMessagePreview := previewB |}
  /\ (updateNotificationSettings MAX_INT_32 contact silentC previewC).1 = InputNotifyUsers
  /\ (updateNotificationSettings MAX_INT_32 group silentG previewG).1 = InputNotifyChats
  /\ (updateNotificationSettings MAX_INT_32 broadcast silentB previewB).1
     = InputNotifyBroadcasts.
Proof.
  intros H1 H2 H3.
  assert (Hm : forall t sil prev pt, (0 <= t)%Z ->
            muted_at t (updateNotificationSettings MAX_INT_32 pt sil prev).2 = truthy sil).
  { intros t sil prev pt Ht. unfold muted_at, updateNotificationSettings. simpl.
    destruct (truthy sil); [reflexivity |]. simpl. apply Z.ltb_ge. lia. }
  unfold fetchNotificationSettings. rewrite !Hm by assumption.
  by repeat split.
Qed.

Lemma sent_settings_witness :
  hasGroupNotifications
    <$> fetchNotificationSettings VUndefined
          (Some (updateNotificationSettings 2147483647 contact (VBool true) VUndefined).2)
          (Some (updateNotificationSettings 2147483647 group VUndefined (VBool true)).2)
          (Some (updateNotificationSettings 2147483647 broadcast (VBool false) VUndefined).2)
          1700000000 1700000000 1700000000
  = Some true.
Proof.
  assert (Ht : (0 <= 1700000000)%Z) by lia.
  destruct (sent_settings_read_back 2147483647 (VBool true) VUndefined VUndefined
              (VBool true) (VBool false) VUndefined VUndefined
              1700000000 1700000000 1700000000 Ht Ht Ht) as [Hread _].
  by rewrite Hread.
Defined.

(** ** Language packs *)

Lemma foldl_object_assign_lookup {V : Type} (collections : list (gmap string V))
  (k : string) :
  foldl object_assign ∅ (reverse collections) !! k = first_defined k collections.
Proof.
  induction collections as [| c rest IH]; simpl; [apply lookup_empty |].
  rewrite reverse_cons, foldl_app. simpl. unfold object_assign at 1.
  rewrite lookup_union, IH. by destruct (c !! k), (first_defined k rest).
Qed.

(** X18: [oldFetchLangPack] answers [undefined] exactly when every request
    came back empty; otherwise it answers with a merged pack that holds,
    under each key, the string of the first source pack, in the order of
    [sourceLangPacks], whose response has that key: earlier packs
    override later ones. *)
Theorem first_lang_pack_wins {R V : Type} (oldBuildLangPack : R -> gmap string V)
  (results : list (option R)) :
  (oldFetchLangPack oldBuildLangPack results = None
   <-> Forall (fun r => r = None) results)
  /\ (~ Forall (fun r => r = None) results ->
      exists merged, oldFetchLangPack oldBuildLangPack results = Some merged)
  /\ (forall merged,
        oldFetchLangPack oldBuildLangPack results = Some merged ->
        forall k,
          merged !! k = first_defined k (map oldBuildLangPack (omap id results))).
Proof.
  assert (Hnone : omap id results = [] <-> Forall (fun r => r = None) results).
  { clear. induction results as [| [r |] results IH]; simpl.
    - split; [constructor | reflexivity].
    - split; [discriminate |]. intros H. apply Forall_cons in H as [H _]. discriminate.
    - rewrite IH. split; [by constructor |]. intros H. by apply Forall_cons in H as [_ H]. }
  unfold oldFetchLangPack.
  destruct (map oldBuildLangPack (omap id results)) as [| c rest] eqn:Hc.
  - apply fmap_nil_inv in Hc. apply Hnone in Hc.
    split; [done |]. split; [done | discriminate].
  - assert (Hsome : ~ Forall (fun r => r = None) results).
    { intros Hall. apply Hnone in Hall. rewrite Hall in Hc. discriminate. }
    split; [split; [discriminate | done] |].
    split; [by eexists |].
    intros merged [= <-] k. apply foldl_object_assign_lookup.
Qed.

(** ** Notification exceptions *)

Lemma foldl_push_exception {P S E : Type} (build : S -> P -> E)
  (updates : list (Update P S)) (acc : list E) :
  foldl (push_exception build) acc updates
  = acc ++ map (fun e => build e.1 e.2) (omap notify_exception_of updates).
Proof.
  revert acc. induction updates as [| u updates IH]; intros acc; simpl.
  - by rewrite app_nil_r.
  - rewrite IH. destruct u as [[peer |] settings |]; simpl; try done.
    by rewrite <- app_assoc.
Qed.

(** X19: [fetchNotificationExceptions] answers with one exception per
    update that sets the notify settings of a peer, built from that
    update's settings and peer, in the order of the updates and with
    nothing else; so it never answers with more exceptions than the
    response has updates, and two responses whose updates are
    concatenated give the concatenated exceptions. *)
Theorem exceptions_follow_the_updates {P S E : Type} (build : S -> P -> E)
  (updates more : list (Update P S)) :
  fetchNotificationExceptions build (Updates updates)
  = Some (map (fun e => build e.1 e.2) (omap notify_exception_of updates))
  /\ fetchNotificationExceptions build (UpdatesCombined updates)
     = fetchNotificationExceptions build (Updates updates)
  /\ (forall es, fetchNotificationExceptions build (Updates updates) = Some es ->
        length es <= length updates)
  /\ (forall es es',
        fetchNotificationExceptions build (Updates updates) = Some es ->
        fetchNotificationExceptions build (Updates more) = Some es' ->
        fetchNotificationExceptions build (Updates (updates ++ more)) = Some (es ++ es')).
Proof.
  unfold fetchNotificationExceptions. rewrite !foldl_push_exception. simpl.
  split; [reflexivity |]. split; [reflexivity |]. split.
  - intros es [= <-]. rewrite length_map.
    clear. induction updates as [| u updates IH]; [reflexivity |].
    change (omap notify_exception_of (u :: updates))
      with (match notify_exception_of u with
            | Some e => e :: omap notify_exception_of updates
            | None => omap notify_exception_of updates
            end).
    destruct (notify_exception_of u); cbn [length]; lia.
  - intros es es' [= <-] [= <-].
    by rewrite omap_app, map_app.
Qed.

